(** * cassandra-migration / cassandra-shift: reconciliation and sequential execution

    A shallow embedding of [index.js] (both variants that the repository
    carries: the older function-style runner, here [Legacy], and the
    [Shift] class) and of [CqlMigration.js], followed by the properties of
    the reconciliation and execution engine.

    Conventions of the embedding.
    - A JavaScript exception is a value of [Error]; a function that may
      throw returns a [result].
    - Code that talks to the cluster runs in the monad [M], a state and
      exception monad over [World].  The state survives a throw.
    - Versions are JavaScript numbers.  A version of a ledger row is a
      32-bit [int] of the table; a version of a definition is what [parseInt]
      makes of the digits of a file name: a natural number that a double
      holds, or [Infinity].  Both are embedded in [Z], with [Infinity] as
      2^1024, a number that no finite double equals, so that [!==] on
      versions is inequality in [Z].  The driver is taken to reject an
      [INSERT] whose version does not fit the column, as its encoder does, so
      that a served [INSERT] stores the version as it was sent.
    - Strings are embedded character by character.  The code tells
      characters apart within ASCII only (the digits, the class
      [[A-z0-9_]], the dot, the semicolon, the line feed); [toUpperCase] is
      the one function that also acts outside ASCII, and the engine applies
      it only to what the file-name pattern has matched, which is ASCII.
    - [cassandraClients], which the [Shift] class is constructed with, is
      taken to be an array of clients, as [cassandraClients[0]] reads it,
      with no properties added to the array.
    - [debug(...)] only prints and is left out. *)

From Stdlib Require Import ZArith Lia Ascii.
From stdpp Require Import base list strings sorting.

Open Scope Z_scope.

(** ** Exceptions *)

(** The [Error] objects the engine creates itself are told apart by their
    message; each message shape is one constructor.  [TypeError] is what the
    JavaScript runtime throws on a property access on [null] or [undefined].
    [External] is anything thrown by a collaborator: the driver, the file
    system, a migration payload. *)
Inductive Error : Type :=
| HaltedHistory (version : Z) (name : string)
| VersionMismatch (applied defined : Z)
| NameMismatch (applied defined : string)
| ChecksumMismatch (applied defined : string)
| TypeError (what : string)
| External (message : string).

Inductive result (A : Type) : Type :=
| Ok (a : A)
| Throw (e : Error).
Arguments Ok {A} a.
Arguments Throw {A} e.

#[global] Instance result_ret : MRet result := λ A a, Ok a.

#[global] Instance result_bind : MBind result := λ A B k r,
  match r with
  | Ok a => k a
  | Throw e => Throw e
  end.

(** ** Strings *)

Definition LF : ascii := ascii_of_nat 10.

Definition is_digit (c : ascii) : bool :=
  let n := nat_of_ascii c in (48 <=? n)%nat && (n <=? 57)%nat.

(** The class [[A-z0-9_]]: the range [A-z] runs over the code points 65 to
    122 and so also holds the six characters between [Z] and [a]. *)
Definition is_word (c : ascii) : bool :=
  let n := nat_of_ascii c in
  ((65 <=? n)%nat && (n <=? 122)%nat) || is_digit c || bool_decide (c = "_"%char).

Fixpoint string_forallb (p : ascii → bool) (s : string) : bool :=
  match s with
  | EmptyString => true
  | String c s' => p c && string_forallb p s'
  end.

(** The longest prefix whose characters satisfy [p], and the rest: what a
    greedy [[...]*] consumes. *)
Fixpoint span (p : ascii → bool) (s : string) : string * string :=
  match s with
  | EmptyString => (EmptyString, EmptyString)
  | String c s' =>
      if p c then let '(taken, rest) := span p s' in (String c taken, rest)
      else (EmptyString, s)
  end.

(** What [String.prototype.match] returns for a regular expression without
    the [g] flag: the position of the match and the captured groups. *)
Record Match : Type := mkMatch {
  index : nat;
  group1 : string;
  group2 : string;
  group3 : string
}.

(** A literal piece of a pattern: the rest of [s] behind [lit] when [s]
    starts with [lit]. *)
Fixpoint literal (lit s : string) : option string :=
  match lit, s with
  | EmptyString, _ => Some s
  | String a lit', String c s' => if bool_decide (a = c) then literal lit' s' else None
  | String _ _, EmptyString => None
  end.

(** [filename.match(...)].  The pattern reads [^ D+ __ W* dot E $] with three
    captured groups: [D+], one or more of the class [[0-9]]; [W*], any number
    of the class [[A-z0-9_]]; and [E], which is [js] or [cql].
    The expression is anchored on both sides, so a match starts at 0.  No
    digit is an underscore and no word character is a dot, so each greedy
    group takes the longest run and backtracking never finds another
    split. *)
Definition match_pattern (filename : string) : option Match :=
  let '(digits, after_digits) := span is_digit filename in
  if bool_decide (digits = EmptyString) then None
  else
    after_sep ← literal "__" after_digits;
    let '(word, after_word) := span is_word after_sep in
    ext ← literal "." after_word;
    if bool_decide (ext = "js") || bool_decide (ext = "cql")
    then Some (mkMatch 0 digits word ext)
    else None.

(** The language of the expression, written out: [digits__word.ext]. *)
Definition matches_pattern (filename : string) : Prop :=
  ∃ digits word ext,
    filename = digits +:+ "__" +:+ word +:+ "." +:+ ext
    ∧ digits ≠ EmptyString
    ∧ string_forallb is_digit digits = true
    ∧ string_forallb is_word word = true
    ∧ (ext = "js" ∨ ext = "cql").

Definition digit_value (c : ascii) : Z := Z.of_nat (nat_of_ascii c) - 48.

Fixpoint parseInt_from (acc : Z) (s : string) : Z :=
  match s with
  | EmptyString => acc
  | String c s' => if is_digit c then parseInt_from (10 * acc + digit_value c) s' else acc
  end.

(** The number that a run of decimal digits spells. *)
Definition spelled (s : string) : Z := parseInt_from 0 s.

(** The Number value of a natural number [n]: the double nearest to [n],
    a tie going to the even significand.  It is [n] itself below 2^53.
    From 2^53 on a double keeps the 53 leading bits [q] of [n] and the
    number [e] of bits dropped; the dropped bits [r] decide the rounding.
    Rounding the largest significand up in the last binade gives 2^1024,
    and so does every [n] beyond: [Infinity]. *)
Definition to_double (n : Z) : Z :=
  if n <? 9007199254740992 then n
  else
    let e := Z.log2 n - 52 in
    let q := Z.shiftr n e in
    let r := n - Z.shiftl q e in
    let half := Z.shiftl 1 (e - 1) in
    let q' := if (half <? r) || ((r =? half) && Z.odd q) then q + 1 else q in
    Z.min (Z.shiftl q' e) (Z.shiftl 1 1024).

(** [parseInt] on the first group, a non-empty run of decimal digits: the
    Number value of the number they spell. *)
Definition parseInt (s : string) : Z := to_double (spelled s).

Fixpoint replace_underscores (s : string) : string :=
  match s with
  | EmptyString => EmptyString
  | String c s' => String (if bool_decide (c = "_"%char) then " "%char else c) (replace_underscores s')
  end.

(** [toUpperCase] on a one-character string, for an ASCII character: the
    letters [a] to [z] go to [A] to [Z] and nothing else changes.  (On other
    characters the method follows the Unicode case mapping, which may even
    give two characters for one; [prettyName] is handed the second group of
    the pattern, which holds characters of the class [[A-z0-9_]] only.) *)
Definition toUpperCase (c : ascii) : ascii :=
  let n := nat_of_ascii c in
  if (97 <=? n)%nat && (n <=? 122)%nat then ascii_of_nat (n - 32) else c.

(** [prettyName]: [spaced[0]] is [undefined] for the empty name, and
    calling [toUpperCase] on it throws. *)
Definition prettyName (name : string) : result string :=
  let spaced := replace_underscores name in
  match spaced with
  | EmptyString => Throw (TypeError "Cannot read properties of undefined (reading 'toUpperCase')")
  | String c rest => Ok (String (toUpperCase c) rest)
  end.

(** [s.split(";\n")] *)
Fixpoint splitStatements (s : string) : list string :=
  match s with
  | EmptyString => [EmptyString]
  | String c rest =>
      match rest with
      | String d rest' =>
          if bool_decide (c = ";"%char) && bool_decide (d = LF)
          then EmptyString :: splitStatements rest'
          else match splitStatements rest with
               | piece :: pieces => String c piece :: pieces
               | [] => [String c EmptyString]
               end
      | EmptyString => [String c EmptyString]
      end
  end.

(** ** The cluster, the ledger table and migration units *)

(** What a migration payload can change: the schema (kept as the list of
    statements served for payloads, oldest first) and the time that passes
    while it runs, in milliseconds.  The ledger table is kept apart in
    [World]: payloads are taken not to write to it. *)
Record Cluster : Type := mkCluster {
  schema : list string;
  clock : Z
}.

(** What running a payload makes of the cluster, and what was thrown. *)
Definition Payload : Type := Cluster → Cluster * option Error.

(** What a runner hands to [migration.execute]: the older runner its client,
    [migration.execute(cassandraClient)]; the [Shift] class the array of
    clients it was constructed with, [migration.execute(cassandraClients)]. *)
Inductive Handed : Type :=
| one_client
| client_array.

(** A row of the ledger table, columns as in [CREATE TABLE]. *)
Module Row.
Record t : Type := mk {
  version : Z;
  name : string;
  type : string;
  checksum : string;
  installed_on : Z;
  execution_time : Z;
  success : bool
}.
End Row.

(** A loaded migration definition. *)
Module Migration.
Record t : Type := mk {
  version : Z;
  name : string;
  type : string;
  checksum : string;
  path : string;
  execute : Handed → Payload
}.
End Migration.

(** The collaborators the engine reaches through [require]: the file system,
    the [checksum] package, the script loader (which gives the checksum of a
    script and the function it exports, to be called with what the runner
    hands over), and a client as seen by a payload: [serve h cs] is
    [cassandraClient.execute(cs)] called on a client. *)
Record Host : Type := mkHost {
  readdirSync : string → result (list string);
  loadFile : string → result string;
  checksum_of : string → string;
  loadScript : string → result (string * (Handed → Payload));
  serve : string → Payload
}.

Definition path_sep : string := "/".

(** ** CqlMigration.js *)

Module CqlMigration.

(** [load]: [this.cql = await BaseMigration.loadFile(this.opts.path);
    this.checksum = checksum(this.cql)]. *)
Definition load (h : Host) (path : string) : result (string * string) :=
  cql ← loadFile h path;
  Ok (cql, checksum_of h cql).

(** [executeStatement(cassandraClient, cs)] is
    [await cassandraClient.execute(cs)].  On a client the statement goes to
    the cluster.  An array has no [execute]: on the array of clients the call
    throws a [TypeError] and nothing reaches a cluster. *)
Definition executeStatement (h : Host) (cassandraClient : Handed) (cs : string) : Payload :=
  match cassandraClient with
  | one_client => serve h cs
  | client_array => λ c, (c, Some (TypeError "cassandraClient.execute is not a function"))
  end.

(** [for (let cs of cqlStatements) await this.executeStatement(...)]: the
    first statement that throws ends the loop. *)
Fixpoint executeStatements (h : Host) (cassandraClient : Handed)
    (cqlStatements : list string) (c : Cluster) : Cluster * option Error :=
  match cqlStatements with
  | [] => (c, None)
  | cs :: rest =>
      match executeStatement h cassandraClient cs c with
      | (c', None) => executeStatements h cassandraClient rest c'
      | (c', Some e) => (c', Some e)
      end
  end.

(** [execute(cassandraClient)] of a unit whose [this.cql] is [cql]. *)
Definition execute (h : Host) (cql : string) (cassandraClient : Handed) : Payload :=
  executeStatements h cassandraClient (splitStatements cql).

(** Modelled from the spec: the constructor of [BaseMigration], which is
    not among the sources: it keeps the type tag and takes [version],
    [name] and [path] from [opts]. *)
Definition new (h : Host) (path : string) (version : Z) (name : string)
  : result Migration.t :=
  loaded ← load h path;
  Ok (Migration.mk version name "CQL" (snd loaded) path (execute h (fst loaded))).

End CqlMigration.

Module JsMigration.

(** Modelled from the spec: [JsMigration], which is not among the sources:
    [load] yields the checksum and the callback that [execute] runs on what
    it is handed, or throws when the script cannot be read. *)
Definition new (h : Host) (path : string) (version : Z) (name : string)
  : result Migration.t :=
  loaded ← loadScript h path;
  Ok (Migration.mk version name "JS" (fst loaded) path (snd loaded)).

End JsMigration.

(** ** The world the engine runs in *)

(** The statements the engine itself sends through [cassandraClient.execute]
    (in [Shift]: through [cassandraClients[0]], the array being taken to hold
    a client). *)
Inductive Statement : Type :=
| CreateKeyspaceIfNotExists (keyspace : string)
| Use (keyspace : string)
| CreateTableIfNotExists (table : string)
| SelectAllFrom (table : string)
| InsertInto (table : string) (row : Row.t).

(** The notifications of [this.emit]. *)
Inductive Event : Type :=
| ensuredKeyspace
| usedKeyspace
| ensuredMigrationTable
| checkedAppliedMigrations
| appliedMigration (version : Z) (name type : string).

(** What an observer of a run sees, in order. *)
Inductive Effect : Type :=
| Served (s : Statement)
| Rejected (s : Statement)
| Executed (version : Z) (name : string)
| Emitted (e : Event).

(** - [ledger]: the rows of the migration table that the options name, in
      the order in which [SELECT *] returns them, which is the order of the
      partition tokens and has nothing to do with the versions.
    - [faults]: what the driver will answer to the statements to come, one
      entry per statement: [Some message] rejects the statement with that
      error, [None] serves it; once the list is used up every statement is
      served.
    - [trace]: the effects so far, oldest first.
    Listeners of the emitter are taken not to throw. *)
Record World : Type := mkWorld {
  cluster : Cluster;
  ledger : list Row.t;
  faults : list (option string);
  trace : list Effect
}.

Definition set_cluster (c : Cluster) (w : World) : World :=
  mkWorld c (ledger w) (faults w) (trace w).
Definition set_ledger (rows : list Row.t) (w : World) : World :=
  mkWorld (cluster w) rows (faults w) (trace w).
Definition set_faults (fs : list (option string)) (w : World) : World :=
  mkWorld (cluster w) (ledger w) fs (trace w).
Definition log (e : Effect) (w : World) : World :=
  mkWorld (cluster w) (ledger w) (faults w) (trace w ++ [e]).

Definition M (A : Type) : Type := World → result A * World.

#[global] Instance M_ret : MRet M := λ A a w, (Ok a, w).

#[global] Instance M_bind : MBind M := λ A B k m w,
  match m w with
  | (Ok a, w') => k a w'
  | (Throw e, w') => (Throw e, w')
  end.

(** A function that only computes, called from code that runs in [M]. *)
Definition lift {A} (r : result A) : M A := λ w, (r, w).

Definition throw {A} (e : Error) : M A := λ w, (Throw e, w).

(** [INSERT INTO ... VALUES] in CQL writes by primary key, which
    [CREATE TABLE] declares to be [version]: a row of that version is
    replaced without an error, otherwise the row is new.  A new row is put last;
    where the cluster would put it plays no part below, since [Shift] sorts
    what it reads and nothing said of the older runner follows a write. *)
Fixpoint upsert (row : Row.t) (rows : list Row.t) : list Row.t :=
  match rows with
  | [] => [row]
  | r :: rest =>
      if bool_decide (Row.version r = Row.version row) then row :: rest
      else r :: upsert row rest
  end.

(** What a served statement does and which rows it returns.  The three
    [... IF NOT EXISTS] and [USE] statements leave the rows of the ledger as
    they are. *)
Definition perform (s : Statement) (w : World) : list Row.t * World :=
  match s with
  | SelectAllFrom _ => (ledger w, w)
  | InsertInto _ row => ([], set_ledger (upsert row (ledger w)) w)
  | _ => ([], w)
  end.

(** [await client.execute(statement)]; the value is [.rows]. *)
Definition client_execute (s : Statement) : M (list Row.t) := λ w,
  match faults w with
  | Some message :: later =>
      (Throw (External message), log (Rejected s) (set_faults later w))
  | None :: later =>
      let '(rows, w') := perform s (set_faults later w) in (Ok rows, log (Served s) w')
  | [] =>
      let '(rows, w') := perform s w in (Ok rows, log (Served s) w')
  end.

Definition emit (e : Event) : M unit := λ w, (Ok tt, log (Emitted e) w).

(** [try { await migration.execute(handed) } catch (err) { ... }]: the
    value is what was caught. *)
Definition try_execute (migration : Migration.t) (handed : Handed) : M (option Error) := λ w,
  let '(c, caught) := Migration.execute migration handed (cluster w) in
  (Ok caught,
   set_cluster c (log (Executed (Migration.version migration) (Migration.name migration)) w)).

(** [new Date()] *)
Definition new_Date : M Z := λ w, (Ok (clock (cluster w)), w).

(** [for (let i = from; i < to; ++i) body(i)] *)
Fixpoint for_count (count i : nat) (body : nat → M unit) : M unit :=
  match count with
  | O => mret tt
  | S count' => body i ;; for_count count' (S i) body
  end.

Definition for_range (from to : nat) (body : nat → M unit) : M unit :=
  for_count (to - from) from body.

(** [Array.prototype.sort(compare)]: an insertion sort, stable as the
    language requires; [compare] answers with a number whose sign orders its
    arguments. *)
Fixpoint sort_insert {A} (compare : A → A → Z) (x : A) (sorted : list A) : list A :=
  match sorted with
  | [] => [x]
  | y :: rest =>
      if compare x y <=? 0 then x :: sorted else y :: sort_insert compare x rest
  end.

Definition sort {A} (compare : A → A → Z) (l : list A) : list A :=
  foldr (sort_insert compare) [] l.

(** The [opts] object.  [migrationTable] is [None] when the caller gave
    none. *)
Module Options.
Record t : Type := mk {
  ensureKeyspace : bool;
  useKeyspace : bool;
  keyspace : string;
  migrationTable : option string;
  dir : string
}.
End Options.

(** [switch(type)] of both loaders, followed by [await migration.load()];
    with no case taken [migration] stays [undefined]. *)
Definition construct_and_load (h : Host) (type path : string) (version : Z) (name : string)
  : result Migration.t :=
  if bool_decide (type = "js") then JsMigration.new h path version name
  else if bool_decide (type = "cql") then CqlMigration.new h path version name
  else Throw (TypeError "Cannot read properties of undefined (reading 'load')").

(** ** index.js, the [Shift] class *)

Module Shift.

Definition ensureKeyspace (keyspace : string) : M unit :=
  client_execute (CreateKeyspaceIfNotExists keyspace) ;; mret tt.

Definition useKeyspace (keyspace : string) : M unit :=
  client_execute (Use keyspace) ;; mret tt.

Definition ensureMigrationTable (migrationTable : string) : M unit :=
  client_execute (CreateTableIfNotExists migrationTable) ;; mret tt.

Definition by_version (r1 r2 : Row.t) : Z := Row.version r1 - Row.version r2.

Definition getAppliedMigrations (migrationTable : string) : M (list Row.t) :=
  rows ← client_execute (SelectAllFrom migrationTable);
  mret (sort by_version rows).

Definition loadAvailableMigration (h : Host) (dir filename : string)
  : result (option Migration.t) :=
  match match_pattern filename with
  | None => Ok None
  | Some m =>
      if negb (index m =? 0)%nat then Ok None
      else
        let type := group3 m in
        let path := dir +:+ path_sep +:+ filename in
        let version := parseInt (group1 m) in
        name ← prettyName (group2 m);
        migration ← construct_and_load h type path version name;
        Ok (Some migration)
  end.

(** The loop of [loadAvailableMigrations]; [migrations] is the array
    built so far. *)
Fixpoint load_each (h : Host) (dir : string) (migrationFiles : list string)
    (migrations : list Migration.t) : result (list Migration.t) :=
  match migrationFiles with
  | [] => Ok migrations
  | file :: rest =>
      m ← loadAvailableMigration h dir file;
      load_each h dir rest
        (match m with Some m => migrations ++ [m] | None => migrations end)
  end.

Definition loadAvailableMigrations (h : Host) (dir : string) : result (list Migration.t) :=
  migrationFiles ← readdirSync h dir;
  load_each h dir migrationFiles [].

(** The loop of [checkAppliedMigrations] from index [i] on, [count]
    rounds being left. *)
Fixpoint check_from (count i : nat) (appliedMigrations : list Row.t)
    (migrations : list Migration.t) : result unit :=
  match count with
  | O => Ok tt
  | S count' =>
      match migrations !! i with
      | None => check_from count' (S i) appliedMigrations migrations
      | Some m =>
          match appliedMigrations !! i with
          | None => Throw (TypeError "Cannot read properties of undefined (reading 'version')")
          | Some am =>
              if bool_decide (Row.version am ≠ Migration.version m) then
                Throw (VersionMismatch (Row.version am) (Migration.version m))
              else if bool_decide (Row.name am ≠ Migration.name m) then
                Throw (NameMismatch (Row.name am) (Migration.name m))
              else if bool_decide (Row.checksum am ≠ Migration.checksum m) then
                Throw (ChecksumMismatch (Row.checksum am) (Migration.checksum m))
              else check_from count' (S i) appliedMigrations migrations
          end
      end
  end.

Definition checkAppliedMigrations (appliedMigrations : list Row.t)
    (migrations : list Migration.t) : result unit :=
  if (length appliedMigrations =? 0)%nat then Ok tt
  else
    match appliedMigrations !! (length appliedMigrations - 1)%nat with
    | None => Throw (TypeError "Cannot read properties of undefined (reading 'success')")
    | Some lm =>
        if negb (Row.success lm) then
          Throw (HaltedHistory (Row.version lm) (Row.name lm))
        else check_from (length appliedMigrations) 0 appliedMigrations migrations
    end.

Definition executeMigration (migrationTable : string) (migration : Migration.t) : M unit :=
  now ← new_Date;
  cachedError ← try_execute migration client_array;
  let success := match cachedError with None => true | Some _ => false end in
  finished ← new_Date;
  client_execute
    (InsertInto migrationTable
       (Row.mk (Migration.version migration) (Migration.name migration)
          (Migration.type migration) (Migration.checksum migration)
          now (finished - now) success)) ;;
  match cachedError with
  | Some err => throw err
  | None => mret tt
  end.

(** The constructor: an absent or empty table name becomes the default. *)
Definition new (opts : Options.t) : Options.t :=
  match Options.migrationTable opts with
  | Some (String _ _) => opts
  | _ =>
      Options.mk (Options.ensureKeyspace opts) (Options.useKeyspace opts)
        (Options.keyspace opts) (Some "migration_history") (Options.dir opts)
  end.

Definition migrationTable (opts : Options.t) : string :=
  default "undefined" (Options.migrationTable opts).

Definition migrate (h : Host) (opts : Options.t) : M unit :=
  (if Options.ensureKeyspace opts
   then ensureKeyspace (Options.keyspace opts) ;; emit ensuredKeyspace
   else mret tt) ;;
  (if Options.useKeyspace opts
   then useKeyspace (Options.keyspace opts) ;; emit usedKeyspace
   else mret tt) ;;
  ensureMigrationTable (migrationTable opts) ;;
  emit ensuredMigrationTable ;;
  appliedMigrations ← getAppliedMigrations (migrationTable opts);
  availableMigrations ← lift (loadAvailableMigrations h (Options.dir opts));
  lift (checkAppliedMigrations appliedMigrations availableMigrations) ;;
  emit checkedAppliedMigrations ;;
  for_range (length appliedMigrations) (length availableMigrations) (λ i,
    match availableMigrations !! i with
    | None => throw (TypeError "Cannot read properties of undefined (reading 'version')")
    | Some m =>
        executeMigration (migrationTable opts) m ;;
        emit (appliedMigration (Migration.version m) (Migration.name m) (Migration.type m))
    end).

(** [migrate] in two halves, for the statements about a run: [prepare] is
    its text down to the two reads and hands on what they returned,
    [reconcile_and_apply] is its text from [checkAppliedMigrations] on. *)
Definition prepare (h : Host) (opts : Options.t) : M (list Row.t * list Migration.t) :=
  (if Options.ensureKeyspace opts
   then ensureKeyspace (Options.keyspace opts) ;; emit ensuredKeyspace
   else mret tt) ;;
  (if Options.useKeyspace opts
   then useKeyspace (Options.keyspace opts) ;; emit usedKeyspace
   else mret tt) ;;
  ensureMigrationTable (migrationTable opts) ;;
  emit ensuredMigrationTable ;;
  appliedMigrations ← getAppliedMigrations (migrationTable opts);
  availableMigrations ← lift (loadAvailableMigrations h (Options.dir opts));
  mret (appliedMigrations, availableMigrations).

Definition reconcile_and_apply (opts : Options.t) (appliedMigrations : list Row.t)
    (availableMigrations : list Migration.t) : M unit :=
  lift (checkAppliedMigrations appliedMigrations availableMigrations) ;;
  emit checkedAppliedMigrations ;;
  for_range (length appliedMigrations) (length availableMigrations) (λ i,
    match availableMigrations !! i with
    | None => throw (TypeError "Cannot read properties of undefined (reading 'version')")
    | Some m =>
        executeMigration (migrationTable opts) m ;;
        emit (appliedMigration (Migration.version m) (Migration.name m) (Migration.type m))
    end).

End Shift.

(** ** index.js, the older runner *)

Module Legacy.

Definition ensureKeyspace (keyspace : string) : M unit :=
  client_execute (CreateKeyspaceIfNotExists keyspace) ;; mret tt.

Definition useKeyspace (keyspace : string) : M unit :=
  client_execute (Use keyspace) ;; mret tt.

Definition ensureMigrationTable : M unit :=
  client_execute (CreateTableIfNotExists "migration_history") ;; mret tt.

Definition getAppliedMigrations : M (list Row.t) :=
  client_execute (SelectAllFrom "migration_history").

(** [match.index] is read with no test for [null]. *)
Definition loadMigration (h : Host) (dir filename : string)
  : result (option Migration.t) :=
  match match_pattern filename with
  | None => Throw (TypeError "Cannot read properties of null (reading 'index')")
  | Some m =>
      if negb (index m =? 0)%nat then Ok None
      else
        let type := group3 m in
        let path := dir +:+ path_sep +:+ filename in
        let version := parseInt (group1 m) in
        let name := group2 m in
        migration ← construct_and_load h type path version name;
        Ok (Some migration)
  end.

Fixpoint load_each (h : Host) (dir : string) (migrationFiles : list string)
    (migrations : list Migration.t) : result (list Migration.t) :=
  match migrationFiles with
  | [] => Ok migrations
  | file :: rest =>
      m ← loadMigration h dir file;
      load_each h dir rest
        (match m with Some m => migrations ++ [m] | None => migrations end)
  end.

Definition loadMigrations (h : Host) (dir : string) : result (list Migration.t) :=
  migrationFiles ← readdirSync h dir;
  load_each h dir migrationFiles [].

(** [m] is used with no test for [undefined]. *)
Fixpoint check_from (count i : nat) (appliedMigrations : list Row.t)
    (migrations : list Migration.t) : result unit :=
  match count with
  | O => Ok tt
  | S count' =>
      match appliedMigrations !! i, migrations !! i with
      | Some am, Some m =>
          if bool_decide (Row.version am ≠ Migration.version m) then
            Throw (VersionMismatch (Row.version am) (Migration.version m))
          else if bool_decide (Row.name am ≠ Migration.name m) then
            Throw (NameMismatch (Row.name am) (Migration.name m))
          else if bool_decide (Row.checksum am ≠ Migration.checksum m) then
            Throw (ChecksumMismatch (Row.checksum am) (Migration.checksum m))
          else check_from count' (S i) appliedMigrations migrations
      | _, _ => Throw (TypeError "Cannot read properties of undefined (reading 'version')")
      end
  end.

Definition checkAppliedMigrations (appliedMigrations : list Row.t)
    (migrations : list Migration.t) : result unit :=
  if (length appliedMigrations =? 0)%nat then Ok tt
  else
    match appliedMigrations !! (length appliedMigrations - 1)%nat with
    | None => Throw (TypeError "Cannot read properties of undefined (reading 'success')")
    | Some lm =>
        if negb (Row.success lm) then
          Throw (HaltedHistory (Row.version lm) (Row.name lm))
        else check_from (length appliedMigrations) 0 appliedMigrations migrations
    end.

Definition executeMigration (migration : Migration.t) : M unit :=
  now ← new_Date;
  cachedError ← try_execute migration one_client;
  let success := match cachedError with None => true | Some _ => false end in
  finished ← new_Date;
  client_execute
    (InsertInto "migration_history"
       (Row.mk (Migration.version migration) (Migration.name migration)
          (Migration.type migration) (Migration.checksum migration)
          now (finished - now) success)) ;;
  match cachedError with
  | Some err => throw err
  | None => mret tt
  end.

(** The function the module exports. *)
Definition module_exports (h : Host) (opts : Options.t) : M unit :=
  (if Options.ensureKeyspace opts then ensureKeyspace (Options.keyspace opts) else mret tt) ;;
  (if Options.useKeyspace opts then useKeyspace (Options.keyspace opts) else mret tt) ;;
  ensureMigrationTable ;;
  appliedMigrations ← getAppliedMigrations;
  migrations ← lift (loadMigrations h (Options.dir opts));
  lift (checkAppliedMigrations appliedMigrations migrations) ;;
  for_range (length appliedMigrations) (length migrations) (λ i,
    match migrations !! i with
    | None => throw (TypeError "Cannot read properties of undefined (reading 'version')")
    | Some m => executeMigration m
    end).

(** The same function in two halves, as for [Shift.migrate]. *)
Definition prepare (h : Host) (opts : Options.t) : M (list Row.t * list Migration.t) :=
  (if Options.ensureKeyspace opts then ensureKeyspace (Options.keyspace opts) else mret tt) ;;
  (if Options.useKeyspace opts then useKeyspace (Options.keyspace opts) else mret tt) ;;
  ensureMigrationTable ;;
  appliedMigrations ← getAppliedMigrations;
  migrations ← lift (loadMigrations h (Options.dir opts));
  mret (appliedMigrations, migrations).

Definition reconcile_and_apply (appliedMigrations : list Row.t)
    (migrations : list Migration.t) : M unit :=
  lift (checkAppliedMigrations appliedMigrations migrations) ;;
  for_range (length appliedMigrations) (length migrations) (λ i,
    match migrations !! i with
    | None => throw (TypeError "Cannot read properties of undefined (reading 'version')")
    | Some m => executeMigration m
    end).

End Legacy.

(** ** Observations on a run *)

(** The rows written to the ledger, the units whose [execute] was called,
    and the per-unit notifications, as they appear among some effects. *)
Definition writes_of (es : list Effect) : list Row.t :=
  omap (λ e, match e with Served (InsertInto _ row) => Some row | _ => None end) es.

Definition executed_of (es : list Effect) : list (Z * string) :=
  omap (λ e, match e with Executed version name => Some (version, name) | _ => None end) es.

Definition applied_of (es : list Effect) : list (Z * string * string) :=
  omap (λ e, match e with
             | Emitted (appliedMigration version name type) => Some (version, name, type)
             | _ => None
             end) es.

(** A stretch of a run in which no unit ran, nothing was written to the
    ledger and no unit was announced. *)
Definition quiet (es : list Effect) : Prop :=
  writes_of es = [] ∧ executed_of es = [] ∧ applied_of es = [].

(** [es] are the effects that lead from [w] to [w']. *)
Definition since (w w' : World) (es : list Effect) : Prop :=
  trace w' = trace w ++ es.

(** An applied record and a definition agree on what reconciliation
    compares. *)
Definition agrees (am : Row.t) (m : Migration.t) : Prop :=
  Row.version am = Migration.version m
  ∧ Row.name am = Migration.name m
  ∧ Row.checksum am = Migration.checksum m.

(** What reconciliation reports for a pair that does not agree: the version
    is looked at first, then the name, then the checksum. *)
Definition difference (am : Row.t) (m : Migration.t) : option Error :=
  if bool_decide (Row.version am ≠ Migration.version m) then
    Some (VersionMismatch (Row.version am) (Migration.version m))
  else if bool_decide (Row.name am ≠ Migration.name m) then
    Some (NameMismatch (Row.name am) (Migration.name m))
  else if bool_decide (Row.checksum am ≠ Migration.checksum m) then
    Some (ChecksumMismatch (Row.checksum am) (Migration.checksum m))
  else None.

(** The last applied record, if there is one, is a success. *)
Definition last_succeeded (appliedMigrations : list Row.t) : Prop :=
  ∀ lm, last appliedMigrations = Some lm → Row.success lm = true.

Definition mismatch (e : Error) : Prop :=
  match e with
  | VersionMismatch _ _ | NameMismatch _ _ | ChecksumMismatch _ _ => True
  | _ => False
  end.

Definition identity (m : Migration.t) : Z * string :=
  (Migration.version m, Migration.name m).

(** What the ledger record of a unit must carry whatever the clock says. *)
Definition outcome_of (row : Row.t) : Z * string * string * string * bool :=
  (Row.version row, Row.name row, Row.type row, Row.checksum row, Row.success row).

Definition outcome (m : Migration.t) (success : bool) : Z * string * string * string * bool :=
  (Migration.version m, Migration.name m, Migration.type m, Migration.checksum m, success).

(** The loop of [migrate] told over the units it visits: [f] on each, in
    order, until one throws. *)
Fixpoint each {A} (f : A → M unit) (l : list A) : M unit :=
  match l with
  | [] => mret tt
  | x :: rest => f x ;; each f rest
  end.

(** Run in this order from cluster [c], each called with [handed], the
    payloads of [ms] all return normally; the value is the cluster they
    leave. *)
Fixpoint all_succeed (handed : Handed) (ms : list Migration.t) (c : Cluster) : option Cluster :=
  match ms with
  | [] => Some c
  | m :: rest =>
      match Migration.execute m handed c with
      | (c', None) => all_succeed handed rest c'
      | (_, Some _) => None
      end
  end.

(** The driver serves the next [n] statements. *)
Definition served_next (n : nat) (w : World) : Prop :=
  ∀ i message, (i < n)%nat → faults w !! i ≠ Some (Some message).


(** A computation of the set-up kind: it leaves the ledger and the cluster
    alone and its effects are quiet. *)
Definition setup_like {A} (m : M A) : Prop :=
  ∀ w r w', m w = (r, w') →
    ledger w' = ledger w ∧ cluster w' = cluster w ∧ ∃ es, since w w' es ∧ quiet es.

(** The order in which the applied history is to come. *)
Definition version_le (r1 r2 : Row.t) : Prop := Row.version r1 ≤ Row.version r2.

(** The row that [executeMigration] writes for a unit that started at [now]
    and was through at [finished]. *)
Definition record_of (m : Migration.t) (now finished : Z) (success : bool) : Row.t :=
  Row.mk (Migration.version m) (Migration.name m) (Migration.type m)
    (Migration.checksum m) now (finished - now) success.

(** One round of the loop of [Shift.migrate]. *)
Definition step (opts : Options.t) (m : Migration.t) : M unit :=
  Shift.executeMigration (Shift.migrationTable opts) m ;;
  emit (appliedMigration (Migration.version m) (Migration.name m) (Migration.type m)).

Definition announced (m : Migration.t) : Z * string * string :=
  (Migration.version m, Migration.name m, Migration.type m).

(** ** A small installation to run the engine on *)

Module Demo.

(** A directory: file names in the order in which [readdirSync] lists
    them, each with its content. *)
Definition Directory : Type := list (string * string).

(** A statement that the cluster refuses when a payload sends it. *)
Definition bad_statement : string := "DROP TABLE missing".

(** What a client does with a statement of a payload: it takes a
    millisecond; a statement that is served is kept in the schema. *)
Definition client_serves (cs : string) : Payload := λ c,
  if bool_decide (cs = bad_statement)
  then (mkCluster (schema c) (clock c + 1), Some (External "Invalid query"))
  else (mkCluster (schema c ++ [cs]) (clock c + 1), None).

(** The directory [dir] holds [files] and nothing else exists; a checksum
    is told apart by its input.  A script is given by one statement: the
    function it exports sends this statement to the client it is handed, or
    to the first client of the array it is handed. *)
Definition host (dir : string) (files : Directory) : Host :=
  {| readdirSync d :=
       if bool_decide (d = dir) then Ok (files.*1) else Throw (External "ENOENT");
     loadFile p :=
       match list_find (λ f, dir +:+ path_sep +:+ f.1 = p) files with
       | Some (_, f) => Ok f.2
       | None => Throw (External "ENOENT")
       end;
     checksum_of s := "#" +:+ s;
     loadScript p :=
       match list_find (λ f, dir +:+ path_sep +:+ f.1 = p) files with
       | Some (_, f) => Ok ("#" +:+ f.2, λ _, client_serves f.2)
       | None => Throw (External "Cannot find module")
       end;
     serve := client_serves |}.

Definition opts : Options.t := Shift.new (Options.mk false false "ks" None "migrations").

Definition two_files : Directory :=
  [("1__create_users.cql", "CREATE TABLE users"); ("2__add_index.cql", "CREATE INDEX i")].


(** The same directories with scripts in the place of the statement
    files. *)
Definition two_scripts : Directory :=
  [("1__create_users.js", "CREATE TABLE users"); ("2__add_index.js", "CREATE INDEX i")].


(** The spec's scenario of three pending units of which the second
    fails. *)
Definition three_scripts : Directory :=
  [("1__create_users.js", "CREATE TABLE users");
   ("2__drop_missing.js", bad_statement);
   ("3__add_index.js", "CREATE INDEX i")].

(** What the loader makes of a directory; empty when it throws. *)
Definition loaded (dir : string) (files : Directory) : list Migration.t :=
  match Shift.loadAvailableMigrations (host dir files) dir with
  | Ok D => D
  | Throw _ => []
  end.

Definition nobody : Migration.t :=
  Migration.mk 0 "" "" "" "" (λ _ c, (c, None)).

Definition world (rows : list Row.t) (fs : list (option string)) : World :=
  mkWorld (mkCluster [] 1000) rows fs [].

(** An applied record and a definition, given by what reconciliation
    compares. *)
Definition row (version : Z) (name checksum : string) (success : bool) : Row.t :=
  Row.mk version name "CQL" checksum 0 1 success.

Definition unit (version : Z) (name checksum : string) : Migration.t :=
  Migration.mk version name "CQL" checksum "" (λ _ c, (c, None)).

(** The ledger after the two files of [two_files] were applied, as a
    [SELECT] may return it. *)
Definition two_rows : list Row.t :=
  [row 2 "Add index" "#CREATE INDEX i" true;
   row 1 "Create users" "#CREATE TABLE users" true].

(** Five applied versions in the order of their partition tokens, which
    is how [SELECT *] returns them. *)
Definition five_rows : list Row.t :=
  [row 5 "E" "e" true; row 1 "A" "a" true; row 2 "B" "b" true;
   row 4 "D" "d" true; row 3 "C" "c" true].

Definition five_units : list Migration.t :=
  [unit 1 "A" "a"; unit 2 "B" "b"; unit 3 "C" "c"; unit 4 "D" "d"; unit 5 "E" "e"].

Definition failing_unit (version : Z) (name checksum : string) (e : Error) : Migration.t :=
  Migration.mk version name "CQL" checksum "" (λ _ c, (c, Some e)).

End Demo.

(** The versions that the file names of a listing announce, in the order of
    the listing; names that do not match announce none. *)
Definition listed_versions (files : list string) : list Z :=
  omap (λ file, (λ m, parseInt (group1 m)) <$> match_pattern file) files.

(** The first character, if any, does not satisfy [p]. *)
Definition stops (p : ascii → bool) (s : string) : Prop :=
  match s with
  | EmptyString => True
  | String c _ => p c = false
  end.

Module DemoListings.

(** The same two definitions as [Demo.two_files] with versions 2 and 10,
    as a listing in alphabetical order returns them. *)
Definition alphabetical : Demo.Directory :=
  [("10__add_index.cql", "CREATE INDEX i"); ("2__create_users.cql", "CREATE TABLE users")].

(** The same listing with scripts. *)
Definition alphabetical_scripts : Demo.Directory :=
  [("10__add_index.js", "CREATE INDEX i"); ("2__create_users.js", "CREATE TABLE users")].

(** The ledger after the two definitions of [alphabetical] were applied. *)
Definition both_applied : list Row.t :=
  [Demo.row 10 "Add index" "#CREATE INDEX i" true;
   Demo.row 2 "Create users" "#CREATE TABLE users" true].

Definition with_readme : Demo.Directory :=
  Demo.two_files ++ [("README.md", "how to write a migration")].

End DemoListings.

(** ** Further notions for the properties of the helpers *)

(** [pieces.join(sep)] *)
Fixpoint join (sep : string) (pieces : list string) : string :=
  match pieces with
  | [] => EmptyString
  | [piece] => piece
  | piece :: rest => piece +:+ sep +:+ join sep rest
  end.

(** The separator of [CqlMigration.execute]. *)
Definition statement_separator : string := String ";" (String LF EmptyString).

(** The separator occurs somewhere in [s]. *)
Fixpoint has_separator (s : string) : bool :=
  match s with
  | EmptyString => false
  | String c rest =>
      match rest with
      | String d _ => (bool_decide (c = ";"%char) && bool_decide (d = LF)) || has_separator rest
      | EmptyString => false
      end
  end.

Definition is_lower (c : ascii) : bool :=
  let n := nat_of_ascii c in (97 <=? n)%nat && (n <=? 122)%nat.

Definition not_underscore (c : ascii) : bool := negb (bool_decide (c = "_"%char)).

Module DemoListings2.

(** A directory with a file whose name part is empty. *)
Definition with_empty_name : Demo.Directory :=
  [("1__create_users.cql", "CREATE TABLE users"); ("2__.cql", "CREATE INDEX i")].

(** Two files whose versions differ by a leading zero only. *)
Definition padded : Demo.Directory :=
  [("7__add_index.cql", "CREATE INDEX i"); ("07__add_index.cql", "CREATE INDEX j")].

End DemoListings2.

(** The errors that reconciliation creates itself. *)
Definition reconciliation_error (e : Error) : Prop :=
  match e with
  | HaltedHistory _ _ | VersionMismatch _ _ | NameMismatch _ _ | ChecksumMismatch _ _ => True
  | _ => False
  end.

(** The number of statements that set-up hands to the driver. *)
Definition setup_statements (opts : Options.t) : nat :=
  (if Options.ensureKeyspace opts then 1 else 0)
  + (if Options.useKeyspace opts then 1 else 0)
  + 2.

(** What a run sends and announces for set-up when the driver serves it. *)
Definition setup_effects (opts : Options.t) : list Effect :=
  (if Options.ensureKeyspace opts
   then [Served (CreateKeyspaceIfNotExists (Options.keyspace opts)); Emitted ensuredKeyspace]
   else [])
  ++ (if Options.useKeyspace opts
      then [Served (Use (Options.keyspace opts)); Emitted usedKeyspace]
      else [])
  ++ [Served (CreateTableIfNotExists (Shift.migrationTable opts));
      Emitted ensuredMigrationTable;
      Served (SelectAllFrom (Shift.migrationTable opts))].

(** What a ledger row tells of the unit it records. *)
Definition row_identity (row : Row.t) : Z * string := (Row.version row, Row.name row).

Definition row_announced (row : Row.t) : Z * string * string :=
  (Row.version row, Row.name row, Row.type row).

Definition succeeded (row : Row.t) : Prop := Row.success row = true.

#[global] Instance succeeded_dec (row : Row.t) : Decision (succeeded row).
Proof. unfold succeeded. apply _. Defined.

(** The books of a stretch of a run that ended with [r]: which rows were
    written and which notifications given for the units executed. *)
Definition books (r : result unit) (es : list Effect) : Prop :=
  applied_of es = row_announced <$> filter succeeded (writes_of es)
  ∧ row_identity <$> writes_of es `prefix_of` executed_of es
  ∧ (length (executed_of es) ≤ S (length (writes_of es)))%nat
  ∧ (∀ i row, writes_of es !! i = Some row → ¬ succeeded row →
       S i = length (writes_of es))
  ∧ (r = Ok tt → length (executed_of es) = length (writes_of es)
                 ∧ Forall succeeded (writes_of es)).

(** The table that a statement names, if it names one, and the tables named
    by the statements handed to the driver, served or not, among some
    effects. *)
Definition table_of (s : Statement) : option string :=
  match s with
  | CreateTableIfNotExists table | SelectAllFrom table | InsertInto table _ => Some table
  | CreateKeyspaceIfNotExists _ | Use _ => None
  end.

Definition tables_of (es : list Effect) : list string :=
  omap (λ e, match e with Served s | Rejected s => table_of s | _ => None end) es.

(** A computation whose statements name no table but [table]. *)
Definition names_only {A} (table : string) (m : M A) : Prop :=
  ∀ w, ∃ es, since w (m w).2 es ∧ Forall (eq table) (tables_of es).

Module DemoListings3.

(** One script, whose only statement the cluster refuses. *)
Definition one_bad_script : Demo.Directory := [("1__drop_missing.js", Demo.bad_statement)].

(** One statement file. *)
Definition one_file : Demo.Directory := [("1__create_users.cql", "CREATE TABLE users")].

End DemoListings3.

(** * Properties *)

(** ** The monad *)

Lemma bind_ok {A B} (m : M A) (k : A → M B) w a w' :
  m w = (Ok a, w') → (m ≫= k) w = k a w'.
Proof. intros E. unfold mbind, M_bind. by rewrite E. Qed.

Lemma bind_throw {A B} (m : M A) (k : A → M B) w e w' :
  m w = (Throw e, w') → (m ≫= k) w = (Throw e, w').
Proof. intros E. unfold mbind, M_bind. by rewrite E. Qed.

Lemma bind_inv_ok {A B} (m : M A) (k : A → M B) w b w' :
  (m ≫= k) w = (Ok b, w') → ∃ a w1, m w = (Ok a, w1) ∧ k a w1 = (Ok b, w').
Proof.
  unfold mbind, M_bind. destruct (m w) as [[a|e] w1]; [eauto | discriminate].
Qed.

(** ** Reconciliation *)

Lemma last_lookup_length {A} (l : list A) : l !! (length l - 1)%nat = last l ∨ l = [].
Proof.
  destruct l as [|x l]; [by right | left].
  rewrite last_lookup. f_equal. simpl. lia.
Qed.

Section check_from.
Variables (H : list Row.t) (D : list Migration.t).

Lemma check_from_agree count i :
  (i + count ≤ length H)%nat →
  (∀ j am m, (i ≤ j < i + count)%nat → H !! j = Some am → D !! j = Some m → agrees am m) →
  Shift.check_from count i H D = Ok tt.
Proof.
  revert i. induction count as [|count IH]; intros i Hlen Hag; [done|].
  simpl. destruct (D !! i) as [m|] eqn:Em.
  - destruct (lookup_lt_is_Some_2 H i) as [am Eam]; [lia|]. rewrite Eam.
    destruct (Hag i am m) as (Hv & Hn & Hc); [lia | done | done |].
    rewrite !bool_decide_eq_false_2 by (intros ?; congruence).
    apply IH; [lia|]. intros j ? ? ?. apply Hag. lia.
  - apply IH; [lia|]. intros j ? ? ?. apply Hag. lia.
Qed.

Lemma difference_None am m : difference am m = None ↔ agrees am m.
Proof.
  unfold difference, agrees. repeat case_bool_decide; split; try done; tauto.
Qed.

Lemma difference_mismatch am m e : difference am m = Some e → mismatch e.
Proof. unfold difference. repeat case_bool_decide; by intros [= <-]. Qed.

Lemma check_from_step count i :
  Shift.check_from (S count) i H D =
    match D !! i with
    | None => Shift.check_from count (S i) H D
    | Some m =>
        match H !! i with
        | None => Throw (TypeError "Cannot read properties of undefined (reading 'version')")
        | Some am =>
            match difference am m with
            | Some e => Throw e
            | None => Shift.check_from count (S i) H D
            end
        end
    end.
Proof.
  simpl. destruct (D !! i) as [m|]; [|done]. destruct (H !! i) as [am|]; [|done].
  unfold difference. by repeat case_bool_decide.
Qed.

(** The loop stops at the first pair that does not agree and reports its
    difference. *)
Lemma check_from_first_difference count i0 i am m :
  (i0 + count ≤ length H)%nat → (i0 ≤ i < i0 + count)%nat →
  H !! i = Some am → D !! i = Some m → ¬ agrees am m →
  ∃ j am' m' e,
    (i0 ≤ j ≤ i)%nat ∧ H !! j = Some am' ∧ D !! j = Some m'
    ∧ (∀ k am'' m'', (i0 ≤ k < j)%nat → H !! k = Some am'' → D !! k = Some m'' →
         agrees am'' m'')
    ∧ difference am' m' = Some e
    ∧ Shift.check_from count i0 H D = Throw e.
Proof.
  revert i0. induction count as [|count IH]; intros i0 Hlen Hi Eam Em Hno; [lia|].
  rewrite check_from_step. destruct (D !! i0) as [m0|] eqn:Em0.
  - destruct (lookup_lt_is_Some_2 H i0) as [am0 Eam0]; [lia|]. rewrite Eam0.
    destruct (difference am0 m0) as [e|] eqn:Ed.
    + exists i0, am0, m0, e. split_and!; [lia | lia | done | done | intros; lia | done | done].
    + pose proof (proj1 (difference_None _ _) Ed) as Hag0.
      destruct (decide (i = i0)) as [->|Hne].
      { destruct Hno. replace am with am0 by congruence. replace m with m0 by congruence.
        done. }
      destruct (IH (S i0)) as (j & am' & m' & e & Hj & Ej & Ej' & Hbefore & Ed' & Ee);
        [lia | lia | done | done | done |].
      exists j, am', m', e. split_and!; [lia | lia | done | done | | done | done].
      intros k am'' m'' Hk Ek Ek'. destruct (decide (k = i0)) as [->|].
      * replace am'' with am0 by congruence. replace m'' with m0 by congruence. done.
      * apply (Hbefore k); [lia | done | done].
  - destruct (decide (i = i0)) as [->|Hne]; [congruence|].
    destruct (IH (S i0)) as (j & am' & m' & e & Hj & Ej & Ej' & Hbefore & Ed' & Ee);
      [lia | lia | done | done | done |].
    exists j, am', m', e. split_and!; [lia | lia | done | done | | done | done].
    intros k am'' m'' Hk Ek Ek'. destruct (decide (k = i0)) as [->|]; [congruence|].
    apply (Hbefore k); [lia | done | done].
Qed.

Lemma check_from_disagree count i j am m :
  (i + count ≤ length H)%nat → (i ≤ j < i + count)%nat →
  H !! j = Some am → D !! j = Some m → ¬ agrees am m →
  ∃ e, Shift.check_from count i H D = Throw e ∧ mismatch e.
Proof.
  intros Hlen Hj Eam Em Hno.
  destruct (check_from_first_difference count i j am m)
    as (_ & am' & m' & e & _ & _ & _ & _ & Ed & Ee); [done..|].
  exists e. split; [done|]. by eapply difference_mismatch.
Qed.

End check_from.

Lemma check_unfold H D :
  last_succeeded H →
  Shift.checkAppliedMigrations H D = Shift.check_from (length H) 0 H D.
Proof.
  intros Hlast. unfold Shift.checkAppliedMigrations.
  destruct H as [|r H]; [done|].
  destruct (last_lookup_length (r :: H)) as [E|]; [|done].
  change (length (r :: H) =? 0)%nat with false. cbv iota.
  rewrite E. destruct (last (r :: H)) as [lm|] eqn:El.
  - by rewrite (Hlast lm).
  - by apply last_None in El.
Qed.

(** ** Effects of the primitives *)

Lemma since_refl w : since w w [].
Proof. unfold since. by rewrite app_nil_r. Qed.

Lemma since_trans w1 w2 w3 es1 es2 :
  since w1 w2 es1 → since w2 w3 es2 → since w1 w3 (es1 ++ es2).
Proof. unfold since. intros E1 E2. by rewrite E2, E1, app_assoc. Qed.

Lemma quiet_nil : quiet [].
Proof. done. Qed.

Lemma quiet_app es1 es2 : quiet es1 → quiet es2 → quiet (es1 ++ es2).
Proof.
  unfold quiet, writes_of, executed_of, applied_of.
  intros (E1 & E2 & E3) (F1 & F2 & F3). rewrite !omap_app.
  by rewrite E1, E2, E3, F1, F2, F3.
Qed.

Lemma setup_like_ret {A} (a : A) : setup_like (mret a).
Proof.
  intros w r w' [= <- <-]. split_and!; [done..|]. exists []. split; [apply since_refl | done].
Qed.

Lemma setup_like_lift {A} (r : result A) : setup_like (lift r).
Proof.
  intros w r' w' [= <- <-]. split_and!; [done..|]. exists []. split; [apply since_refl | done].
Qed.

Lemma setup_like_bind {A B} (m : M A) (k : A → M B) :
  setup_like m → (∀ a, setup_like (k a)) → setup_like (m ≫= k).
Proof.
  intros Hm Hk w r w'. unfold mbind, M_bind.
  destruct (m w) as [[a|e] w1] eqn:E1; intros E2.
  - destruct (Hm _ _ _ E1) as (L1 & C1 & es1 & S1 & Q1).
    destruct (Hk a _ _ _ E2) as (L2 & C2 & es2 & S2 & Q2).
    split_and!; [congruence.. |]. exists (es1 ++ es2).
    split; [by eapply since_trans | by apply quiet_app].
  - injection E2 as <- <-. by apply (Hm _ _ _ E1).
Qed.

Lemma setup_like_if {A} (b : bool) (m1 m2 : M A) :
  setup_like m1 → setup_like m2 → setup_like (if b then m1 else m2).
Proof. by destruct b. Qed.

Lemma setup_like_emit e :
  (∀ v n t, e ≠ appliedMigration v n t) → setup_like (emit e).
Proof.
  intros He w r w' [= <- <-]. split_and!; [done..|]. exists [Emitted e].
  split; [done|]. by destruct e; [..|destruct (He version name type)].
Qed.

Lemma setup_like_client_execute s :
  (∀ t row, s ≠ InsertInto t row) → setup_like (client_execute s).
Proof.
  intros Hs w r w'. unfold client_execute.
  destruct (faults w) as [|[message|] later] eqn:Ef.
  - destruct s; try (by destruct (Hs table row)); simpl; intros [= <- <-];
      (split_and!; [done..|]); (eexists [_]; split; [done|done]).
  - intros [= <- <-]. split_and!; [done..|]. exists [Rejected s]. split; [done|].
    by destruct s.
  - destruct s; try (by destruct (Hs table row)); simpl; intros [= <- <-];
      (split_and!; [done..|]); (eexists [_]; split; [done|done]).
Qed.

Lemma client_execute_select table w rows w' :
  client_execute (SelectAllFrom table) w = (Ok rows, w') → rows = ledger w.
Proof.
  unfold client_execute. destruct (faults w) as [|[message|] later]; simpl; congruence.
Qed.

(** ** Sorting *)

Lemma sort_insert_Permutation {A} (compare : A → A → Z) x l :
  sort_insert compare x l ≡ₚ x :: l.
Proof.
  induction l as [|y l IH]; simpl; [done|].
  destruct (compare x y <=? 0); [done|]. rewrite IH. apply Permutation_swap.
Qed.

Lemma sort_Permutation {A} (compare : A → A → Z) l : sort compare l ≡ₚ l.
Proof.
  induction l as [|x l IH]; simpl; [done|].
  rewrite sort_insert_Permutation. by f_equiv.
Qed.


Lemma sort_insert_Sorted x l :
  Sorted version_le l → Sorted version_le (sort_insert Shift.by_version x l).
Proof.
  induction 1 as [|y l Hl IH Hy]; simpl; [by repeat constructor|].
  unfold Shift.by_version at 1. destruct (Z.leb_spec (Row.version x - Row.version y) 0) as [Hle|Hgt].
  - constructor; [by constructor|]. constructor. unfold version_le. lia.
  - constructor; [done|].
    destruct Hy as [|z l Hyz]; simpl.
    + constructor. unfold version_le. lia.
    + unfold Shift.by_version. destruct (Row.version x - Row.version z <=? 0);
        constructor; [unfold version_le; lia | done].
Qed.

Lemma sort_Sorted l : Sorted version_le (sort Shift.by_version l).
Proof.
  induction l as [|x l IH]; simpl; [constructor | by apply sort_insert_Sorted].
Qed.

(** ** Set-up *)

Ltac solve_setup_like :=
  repeat match goal with
    | |- ∀ _, setup_like _ => intro
    | |- setup_like (if _ then _ else _) => apply setup_like_if
    | |- setup_like (mret _) => apply setup_like_ret
    | |- setup_like (lift _) => apply setup_like_lift
    | |- setup_like (emit _) => by apply setup_like_emit
    | |- setup_like (client_execute _) => by apply setup_like_client_execute
    | |- setup_like (_ ≫= _) => apply setup_like_bind
    | |- setup_like _ =>
        progress unfold Shift.ensureKeyspace, Shift.useKeyspace, Shift.ensureMigrationTable,
          Shift.getAppliedMigrations, Legacy.ensureKeyspace, Legacy.useKeyspace,
          Legacy.ensureMigrationTable, Legacy.getAppliedMigrations
    end.

Lemma Shift_prepare_setup_like h opts : setup_like (Shift.prepare h opts).
Proof.
  unfold Shift.prepare. solve_setup_like.
Qed.

Lemma Legacy_prepare_setup_like h opts : setup_like (Legacy.prepare h opts).
Proof.
  unfold Legacy.prepare. solve_setup_like.
Qed.

Lemma setup_like_ledger {A} (m : M A) w r w' :
  setup_like m → m w = (r, w') → ledger w' = ledger w.
Proof. intros Hm E. by destruct (Hm _ _ _ E). Qed.

Lemma lift_inv_ok {A} (r : result A) w a w' : lift r w = (Ok a, w') → r = Ok a ∧ w' = w.
Proof. unfold lift. by intros [= -> ->]. Qed.

(** What a run has in hand once set-up is through: the history is the
    ledger sorted by version, the definitions are what the loader gave. *)
Lemma Shift_prepare_ok h opts w H D w1 :
  Shift.prepare h opts w = (Ok (H, D), w1) →
  H = sort Shift.by_version (ledger w)
  ∧ Shift.loadAvailableMigrations h (Options.dir opts) = Ok D
  ∧ ledger w1 = ledger w ∧ cluster w1 = cluster w
  ∧ ∃ es, since w w1 es ∧ quiet es.
Proof.
  intros E.
  destruct (Shift_prepare_setup_like h opts _ _ _ E) as (L & C & es & S & Q).
  split_and!; [| |done|done|by exists es].
  - unfold Shift.prepare in E.
    apply bind_inv_ok in E as (? & wa & Ea & E). apply setup_like_ledger in Ea; [|solve_setup_like].
    apply bind_inv_ok in E as (? & wb & Eb & E). apply setup_like_ledger in Eb; [|solve_setup_like].
    apply bind_inv_ok in E as (? & wc & Ec & E).
    apply setup_like_ledger in Ec; [|solve_setup_like].
    apply bind_inv_ok in E as (? & wd & Ed & E). apply setup_like_ledger in Ed; [|solve_setup_like].
    apply bind_inv_ok in E as (applied & we & Ee & E).
    apply bind_inv_ok in E as (available & wf & Ef & E).
    injection E as <- <- <-.
    unfold Shift.getAppliedMigrations in Ee.
    apply bind_inv_ok in Ee as (rows & wg & Eg & Ee). injection Ee as <- <-.
    apply client_execute_select in Eg. congruence.
  - unfold Shift.prepare in E.
    apply bind_inv_ok in E as (? & wa & Ea & E).
    apply bind_inv_ok in E as (? & wb & Eb & E).
    apply bind_inv_ok in E as (? & wc & Ec & E).
    apply bind_inv_ok in E as (? & wd & Ed & E).
    apply bind_inv_ok in E as (applied & we & Ee & E).
    apply bind_inv_ok in E as (available & wf & Ef & E).
    injection E as <- <- <-. by apply lift_inv_ok in Ef as [-> _].
Qed.

(** [migrate] is its two halves one after the other. *)
Lemma Shift_migrate_halves h opts w :
  Shift.migrate h opts w
  = (Shift.prepare h opts ≫= λ lists, Shift.reconcile_and_apply opts lists.1 lists.2) w.
Proof.
  unfold Shift.migrate, Shift.prepare, Shift.reconcile_and_apply, mbind, M_bind.
  repeat match goal with
    | |- context [match ?m w with _ => _ end] => destruct (m w) as [[?|?] ?]; try done
    | |- context [match ?m ?w' with _ => _ end] => destruct (m w') as [[?|?] ?]; try done
    end.
Qed.

Lemma Shift_migrate_prepared h opts w H D w1 :
  Shift.prepare h opts w = (Ok (H, D), w1) →
  Shift.migrate h opts w = Shift.reconcile_and_apply opts H D w1.
Proof. intros E. by rewrite Shift_migrate_halves, (bind_ok _ _ _ _ _ E). Qed.

Lemma Shift_migrate_unprepared h opts w e w1 :
  Shift.prepare h opts w = (Throw e, w1) →
  Shift.migrate h opts w = (Throw e, w1).
Proof. intros E. by rewrite Shift_migrate_halves, (bind_throw _ _ _ _ _ E). Qed.

Lemma Legacy_prepare_ok h opts w H D w1 :
  Legacy.prepare h opts w = (Ok (H, D), w1) →
  H = ledger w
  ∧ Legacy.loadMigrations h (Options.dir opts) = Ok D
  ∧ ledger w1 = ledger w ∧ cluster w1 = cluster w
  ∧ ∃ es, since w w1 es ∧ quiet es.
Proof.
  intros E.
  destruct (Legacy_prepare_setup_like h opts _ _ _ E) as (L & C & es & S & Q).
  split_and!; [| |done|done|by exists es].
  - unfold Legacy.prepare in E.
    apply bind_inv_ok in E as (? & wa & Ea & E).
    apply setup_like_ledger in Ea; [|solve_setup_like].
    apply bind_inv_ok in E as (? & wb & Eb & E).
    apply setup_like_ledger in Eb; [|solve_setup_like].
    apply bind_inv_ok in E as (? & wc & Ec & E).
    apply setup_like_ledger in Ec; [|solve_setup_like].
    apply bind_inv_ok in E as (applied & we & Ee & E).
    apply bind_inv_ok in E as (available & wf & Ef & E).
    injection E as <- <- <-.
    apply client_execute_select in Ee. congruence.
  - unfold Legacy.prepare in E.
    apply bind_inv_ok in E as (? & wa & Ea & E).
    apply bind_inv_ok in E as (? & wb & Eb & E).
    apply bind_inv_ok in E as (? & wc & Ec & E).
    apply bind_inv_ok in E as (applied & we & Ee & E).
    apply bind_inv_ok in E as (available & wf & Ef & E).
    injection E as <- <- <-. by apply lift_inv_ok in Ef as [-> _].
Qed.

Lemma Legacy_halves h opts w :
  Legacy.module_exports h opts w
  = (Legacy.prepare h opts ≫= λ lists, Legacy.reconcile_and_apply lists.1 lists.2) w.
Proof.
  unfold Legacy.module_exports, Legacy.prepare, Legacy.reconcile_and_apply, mbind, M_bind.
  repeat match goal with
    | |- context [match ?m w with _ => _ end] => destruct (m w) as [[?|?] ?]; try done
    | |- context [match ?m ?w' with _ => _ end] => destruct (m w') as [[?|?] ?]; try done
    end.
Qed.

Lemma Legacy_prepared h opts w H D w1 :
  Legacy.prepare h opts w = (Ok (H, D), w1) →
  Legacy.module_exports h opts w = Legacy.reconcile_and_apply H D w1.
Proof. intros E. by rewrite Legacy_halves, (bind_ok _ _ _ _ _ E). Qed.

(** ** Executing one unit *)

Lemma Shift_executeMigration_spec table m w :
  Shift.executeMigration table m w =
    let '(c, caught) := Migration.execute m client_array (cluster w) in
    let row := record_of m (clock (cluster w)) (clock c)
                 (match caught with None => true | Some _ => false end) in
    let ran := Executed (Migration.version m) (Migration.name m) in
    match faults w with
    | Some message :: later =>
        (Throw (External message),
         mkWorld c (ledger w) later (trace w ++ [ran; Rejected (InsertInto table row)]))
    | fs =>
        (match caught with Some err => Throw err | None => Ok tt end,
         mkWorld c (upsert row (ledger w)) (tail fs)
           (trace w ++ [ran; Served (InsertInto table row)]))
    end.
Proof.
  destruct w as [c0 rows fs tr].
  unfold Shift.executeMigration, mbind, M_bind, new_Date, try_execute, client_execute,
    throw, mret, M_ret, record_of, log, set_cluster, set_faults, perform, set_ledger.
  simpl. destruct (Migration.execute m client_array c0) as [c caught]. simpl.
  destruct fs as [|[message|] later]; destruct caught; simpl; by rewrite <- app_assoc.
Qed.

Lemma step_spec opts m w :
  step opts m w =
    let '(c, caught) := Migration.execute m client_array (cluster w) in
    let row := record_of m (clock (cluster w)) (clock c)
                 (match caught with None => true | Some _ => false end) in
    let ran := Executed (Migration.version m) (Migration.name m) in
    let table := Shift.migrationTable opts in
    match faults w with
    | Some message :: later =>
        (Throw (External message),
         mkWorld c (ledger w) later (trace w ++ [ran; Rejected (InsertInto table row)]))
    | fs =>
        match caught with
        | Some err =>
            (Throw err,
             mkWorld c (upsert row (ledger w)) (tail fs)
               (trace w ++ [ran; Served (InsertInto table row)]))
        | None =>
            (Ok tt,
             mkWorld c (upsert row (ledger w)) (tail fs)
               (trace w ++ [ran; Served (InsertInto table row);
                            Emitted (appliedMigration (Migration.version m)
                                       (Migration.name m) (Migration.type m))]))
        end
    end.
Proof.
  unfold step, mbind, M_bind. rewrite Shift_executeMigration_spec.
  destruct (Migration.execute m client_array (cluster w)) as [c caught]. simpl.
  destruct (faults w) as [|[message|] later]; destruct caught; simpl; try done;
    unfold emit, log; simpl; by rewrite <- app_assoc.
Qed.

(** ** The loop over the pending units *)

Lemma for_count_each {A} (D : list A) (f : A → M unit) (fallback : M unit) count i :
  (i + count = length D)%nat →
  for_count count i (λ i, match D !! i with Some m => f m | None => fallback end)
  = each f (drop i D).
Proof.
  revert i. induction count as [|count IH]; intros i Hlen.
  - by rewrite drop_ge by lia.
  - destruct (lookup_lt_is_Some_2 D i) as [m Em]; [lia|].
    rewrite (drop_S _ _ _ Em). simpl. rewrite Em, IH by lia. done.
Qed.

Lemma for_range_each {A} (D : list A) (f : A → M unit) (fallback : M unit) from :
  for_range from (length D) (λ i, match D !! i with Some m => f m | None => fallback end)
  = each f (drop from D).
Proof.
  unfold for_range. destruct (decide (from ≤ length D)%nat).
  - apply for_count_each. lia.
  - replace (length D - from)%nat with 0%nat by lia. by rewrite drop_ge by lia.
Qed.

Lemma Shift_reconcile_unfold opts H D w :
  Shift.reconcile_and_apply opts H D w =
    match Shift.checkAppliedMigrations H D with
    | Throw e => (Throw e, w)
    | Ok _ => each (step opts) (drop (length H) D) (log (Emitted checkedAppliedMigrations) w)
    end.
Proof.
  unfold Shift.reconcile_and_apply.
  rewrite (for_range_each D (step opts)).
  unfold mbind at 1 2. unfold M_bind, lift, emit.
  by destruct (Shift.checkAppliedMigrations H D).
Qed.

Lemma Legacy_reconcile_unfold H D w :
  Legacy.reconcile_and_apply H D w =
    match Legacy.checkAppliedMigrations H D with
    | Throw e => (Throw e, w)
    | Ok _ => each Legacy.executeMigration (drop (length H) D) w
    end.
Proof.
  unfold Legacy.reconcile_and_apply.
  rewrite (for_range_each D Legacy.executeMigration).
  unfold mbind, M_bind, lift.
  by destruct (Legacy.checkAppliedMigrations H D).
Qed.

Lemma served_next_head n w :
  served_next (S n) w → ∀ message later, faults w ≠ Some message :: later.
Proof. intros Hs message later E. apply (Hs 0%nat message); [lia|]. by rewrite E. Qed.

Lemma served_next_tail n w c rows tr :
  served_next (S n) w → served_next n (mkWorld c rows (tail (faults w)) tr).
Proof.
  intros Hs i message Hi. simpl. rewrite lookup_tail. apply Hs. lia.
Qed.

Lemma upsert_elem row rows : row ∈ upsert row rows.
Proof.
  induction rows as [|r rows IH]; simpl; [by apply list_elem_of_singleton|].
  case_bool_decide; [by left | by right].
Qed.

(** The pending units up to and with the first one that throws, all writes
    being served. *)
Lemma each_until_failure opts before u after w ck c' e :
  all_succeed client_array before (cluster w) = Some ck →
  Migration.execute u client_array ck = (c', Some e) →
  served_next (S (length before)) w →
  ∃ w' es,
    each (step opts) (before ++ u :: after) w = (Throw e, w')
    ∧ since w w' es
    ∧ outcome_of <$> writes_of es
      = ((λ m, outcome m true) <$> before) ++ [outcome u false]
    ∧ executed_of es = identity <$> (before ++ [u])
    ∧ applied_of es = announced <$> before
    ∧ ∃ row,
        last es = Some (Served (InsertInto (Shift.migrationTable opts) row))
        ∧ outcome_of row = outcome u false
        ∧ row ∈ ledger w'.
Proof.
  revert w. induction before as [|m before IH]; intros w Hall Hu Hs.
  - injection Hall as <-. simpl. rewrite (bind_throw _ _ w e
      (mkWorld c' (upsert (record_of u (clock (cluster w)) (clock c') false) (ledger w))
         (tail (faults w))
         (trace w ++ [Executed (Migration.version u) (Migration.name u);
                      Served (InsertInto (Shift.migrationTable opts)
                                (record_of u (clock (cluster w)) (clock c') false))]))).
    + eexists _, _. split; [done|]. split; [done|]. split_and!; [done..|].
      eexists. split; [done|]. split; [done|]. simpl. apply upsert_elem.
    + rewrite step_spec, Hu. simpl.
      pose proof (served_next_head _ _ Hs) as Hh.
      destruct (faults w) as [|[message|] later]; [done| |done]. by destruct (Hh message later).
  - simpl in Hall. destruct (Migration.execute m client_array (cluster w)) as [c1 [err|]] eqn:Em; [done|].
    set (row := record_of m (clock (cluster w)) (clock c1) true).
    set (w1 := mkWorld c1 (upsert row (ledger w)) (tail (faults w))
                 (trace w ++ [Executed (Migration.version m) (Migration.name m);
                              Served (InsertInto (Shift.migrationTable opts) row);
                              Emitted (appliedMigration (Migration.version m)
                                         (Migration.name m) (Migration.type m))])).
    assert (step opts m w = (Ok tt, w1)) as Estep.
    { rewrite step_spec, Em. simpl.
      pose proof (served_next_head _ _ Hs) as Hh.
      destruct (faults w) as [|[message|] later]; [done| |done]. by destruct (Hh message later). }
    destruct (IH w1) as (w' & es & Erun & Hsince & Hw & Hx & Ha & row' & Hlast & Hrow & Hin);
      [done | done | by apply served_next_tail |].
    exists w', ([Executed (Migration.version m) (Migration.name m);
                 Served (InsertInto (Shift.migrationTable opts) row);
                 Emitted (appliedMigration (Migration.version m)
                            (Migration.name m) (Migration.type m))] ++ es).
    split; [|split; [|split_and!]].
    + change (each (step opts) ((m :: before) ++ u :: after) w)
        with ((step opts m ≫= λ _, each (step opts) (before ++ u :: after)) w).
      by rewrite (bind_ok _ _ _ _ _ Estep).
    + unfold since in *. rewrite Hsince. simpl. by rewrite <- app_assoc.
    + unfold writes_of in *. rewrite omap_app, fmap_app. simpl. by rewrite Hw.
    + unfold executed_of in *. rewrite omap_app. simpl. by rewrite Hx.
    + unfold applied_of in *. rewrite omap_app. simpl. by rewrite Ha.
    + exists row'. split_and!; [|done|done].
      rewrite last_app. by rewrite Hlast.
Qed.

(** Whatever happens, the units that run are the pending ones from the
    first on, with none left out. *)
Lemma each_executed opts ms w :
  ∃ r w' es,
    each (step opts) ms w = (r, w')
    ∧ since w w' es
    ∧ executed_of es `prefix_of` (identity <$> ms)
    ∧ head (executed_of es) = head (identity <$> ms).
Proof.
  revert w. induction ms as [|m ms IH]; intros w.
  - exists (Ok tt), w, []. split_and!; [done | apply since_refl | done | done].
  - simpl. unfold mbind, M_bind.
    pose proof (step_spec opts m w) as Estep.
    destruct (Migration.execute m client_array (cluster w)) as [c caught]. simpl in Estep.
    destruct (faults w) as [|[message|] later], caught as [err|];
      rewrite Estep; clear Estep;
      try (eexists _, _, [_; _]; split_and!; [done | done | by eexists | done]).
    all: match goal with |- context [each _ _ ?w1] => destruct (IH w1) as (r & w' & es & -> & Hs & Hp & _) end.
    all: eexists r, w', ([_; _; _] ++ es); split_and!; [done | | |].
    all: try (unfold since in *; rewrite Hs; simpl; by rewrite <- app_assoc).
    all: unfold executed_of in *; rewrite omap_app; simpl; first [done | by apply prefix_cons].
Qed.



(** ** From the loop to the run *)

Lemma quiet_observed es0 es :
  quiet es0 →
  writes_of (es0 ++ es) = writes_of es
  ∧ executed_of (es0 ++ es) = executed_of es
  ∧ applied_of (es0 ++ es) = applied_of es.
Proof.
  intros (Hw & Hx & Ha). unfold writes_of, executed_of, applied_of in *.
  rewrite !omap_app. by rewrite Hw, Hx, Ha.
Qed.

Lemma Shift_run h opts w0 w H D r w' es :
  Shift.prepare h opts w0 = (Ok (H, D), w) →
  Shift.reconcile_and_apply opts H D w = (r, w') →
  since w w' es →
  ∃ es0, quiet es0 ∧ Shift.migrate h opts w0 = (r, w') ∧ since w0 w' (es0 ++ es).
Proof.
  intros Ep Er Hs.
  destruct (Shift_prepare_ok _ _ _ _ _ _ Ep) as (_ & _ & _ & _ & es0 & Hs0 & Hq).
  exists es0. split_and!; [done | | by eapply since_trans].
  by rewrite (Shift_migrate_prepared _ _ _ _ _ _ Ep).
Qed.

Lemma Shift_reconcile_throw opts H D w e :
  Shift.checkAppliedMigrations H D = Throw e →
  Shift.reconcile_and_apply opts H D w = (Throw e, w).
Proof. intros E. by rewrite Shift_reconcile_unfold, E. Qed.

(** A run that reconciliation stops has done nothing but set-up. *)
Lemma Shift_run_stopped h opts w0 w H D e :
  Shift.prepare h opts w0 = (Ok (H, D), w) →
  Shift.checkAppliedMigrations H D = Throw e →
  Shift.migrate h opts w0 = (Throw e, w)
  ∧ ledger w = ledger w0 ∧ cluster w = cluster w0
  ∧ ∃ es, since w0 w es ∧ quiet es.
Proof.
  intros Ep Ec.
  destruct (Shift_prepare_ok _ _ _ _ _ _ Ep) as (_ & _ & L & C & es0 & Hs0 & Hq).
  split_and!; [|done|done|by exists es0].
  rewrite (Shift_migrate_prepared _ _ _ _ _ _ Ep). by apply Shift_reconcile_throw.
Qed.

(** * The claims *)

(** C1. When the applied history [H] agrees, record by record, in version,
    name and checksum with the first [length H] definitions, and its last
    record is a success, [checkAppliedMigrations] returns without throwing,
    and in the run the units whose [execute] is called are definitions from
    index [length H] on, in order and with none skipped, starting with the
    one at index [length H]. *)
Theorem matching_prefix_reconciles (H : list Row.t) (D1 D2 : list Migration.t) :
  Forall2 agrees H D1 →
  last_succeeded H →
  Shift.checkAppliedMigrations H (D1 ++ D2) = Ok tt
  ∧ ∀ h opts w0 w,
      Shift.prepare h opts w0 = (Ok (H, D1 ++ D2), w) →
      ∃ r w' es,
        Shift.migrate h opts w0 = (r, w')
        ∧ since w0 w' es
        ∧ executed_of es `prefix_of` (identity <$> drop (length H) (D1 ++ D2))
        ∧ head (executed_of es) = identity <$> (D1 ++ D2) !! length H.
Proof.
  intros Hag Hlast.
  assert (Shift.checkAppliedMigrations H (D1 ++ D2) = Ok tt) as Hcheck.
  { rewrite check_unfold by done. apply check_from_agree; [done|].
    intros j am m _ Eam Em.
    rewrite lookup_app_l in Em by (rewrite <- (Forall2_length _ _ _ Hag); by eapply lookup_lt_Some).
    by eapply Forall2_lookup_lr. }
  split; [done|]. intros h opts w0 w Ep.
  destruct (each_executed opts (drop (length H) (D1 ++ D2))
              (log (Emitted checkedAppliedMigrations) w)) as (r & w' & es & Er & Hs & Hp & Hh).
  destruct (Shift_run h opts w0 w H (D1 ++ D2) r w' ([Emitted checkedAppliedMigrations] ++ es))
    as (es0 & Hq & Em & Hs').
  { done. }
  { by rewrite Shift_reconcile_unfold, Hcheck. }
  { unfold since in *. rewrite Hs. simpl. by rewrite <- app_assoc. }
  exists r, w', (es0 ++ [Emitted checkedAppliedMigrations] ++ es).
  destruct (quiet_observed es0 ([Emitted checkedAppliedMigrations] ++ es) Hq) as (_ & -> & _).
  split_and!; [done | done | done |].
  change (executed_of ([Emitted checkedAppliedMigrations] ++ es)) with (executed_of es).
  rewrite Hh. destruct (drop (length H) (D1 ++ D2)) as [|m ms] eqn:Ed.
  - apply drop_nil_inv in Ed. by rewrite lookup_ge_None_2.
  - simpl. assert (drop (length H) (D1 ++ D2) !! 0%nat = Some m) as E0 by by rewrite Ed.
    rewrite lookup_drop in E0. by rewrite Nat.add_0_r in E0; rewrite E0.
Qed.

Lemma matching_prefix_reconciles_witness :
  let H := [Demo.row 1 "Create users" "abc" true] in
  let D1 := [Demo.unit 1 "Create users" "abc"] in
  let D2 := [Demo.unit 2 "Add index" "def"] in
  Forall2 agrees H D1 ∧ last_succeeded H
  ∧ Shift.checkAppliedMigrations H (D1 ++ D2) = Ok tt.
Proof.
  intros H D1 D2.
  assert (Forall2 agrees H D1) as Hag by (repeat constructor).
  assert (last_succeeded H) as Hlast by (intros lm [= <-]; reflexivity).
  split; [exact Hag|]. split; [exact Hlast|].
  exact (proj1 (matching_prefix_reconciles H D1 D2 Hag Hlast)).
Defined.

(** C2, as amended.  When the last applied record is a success and at some
    index [i] both an applied record and a definition exist whose checksums
    differ, [checkAppliedMigrations] throws a mismatch error: that of the
    first index [j] at which an applied record and its definition do not
    agree, where the version is compared before the name and the name before
    the checksum.  It is the checksum mismatch of index [i] when all earlier
    pairs agree and the pair at [i] agrees in version and name.  In each
    case the run ends with that error after set-up: no unit is executed and
    nothing is written. *)
Theorem mismatch_reported_in_check_order (H : list Row.t) (D : list Migration.t)
    (i : nat) (am : Row.t) (m : Migration.t) :
  last_succeeded H →
  H !! i = Some am →
  D !! i = Some m →
  Row.checksum am ≠ Migration.checksum m →
  ∃ j am' m' e,
    (j ≤ i)%nat ∧ H !! j = Some am' ∧ D !! j = Some m'
    ∧ (∀ k am'' m'', (k < j)%nat → H !! k = Some am'' → D !! k = Some m'' → agrees am'' m'')
    ∧ difference am' m' = Some e
    ∧ Shift.checkAppliedMigrations H D = Throw e
    ∧ mismatch e
    ∧ ((∀ k am'' m'', (k < i)%nat → H !! k = Some am'' → D !! k = Some m'' → agrees am'' m'') →
       Row.version am = Migration.version m →
       Row.name am = Migration.name m →
       e = ChecksumMismatch (Row.checksum am) (Migration.checksum m))
    ∧ ∀ h opts w0 w,
        Shift.prepare h opts w0 = (Ok (H, D), w) →
        Shift.migrate h opts w0 = (Throw e, w)
        ∧ ledger w = ledger w0 ∧ cluster w = cluster w0
        ∧ ∃ es, since w0 w es ∧ quiet es.
Proof.
  intros Hlast Eam Em Hc.
  pose proof (lookup_lt_Some _ _ _ Eam) as Hi.
  destruct (check_from_first_difference H D (length H) 0 i am m)
    as (j & am' & m' & e & Hj & Ej & Ej' & Hbefore & Ed & Ee);
    [lia | lia | done | done | by intros (_ & _ & ?) |].
  exists j, am', m', e. rewrite check_unfold by done.
  split_and!; [lia | done | done | | done | done | by eapply difference_mismatch | |].
  - intros k am'' m'' Hk. apply (Hbefore k). lia.
  - intros Hagree Hv Hn.
    destruct (decide (j = i)) as [->|Hne].
    + replace am' with am in Ed by congruence. replace m' with m in Ed by congruence.
      unfold difference in Ed.
      rewrite !bool_decide_eq_false_2 in Ed by (intros ?; congruence).
      rewrite bool_decide_eq_true_2 in Ed by done. congruence.
    + assert (agrees am' m') as Hag by (apply (Hagree j); [lia | done | done]).
      apply difference_None in Hag. congruence.
  - intros h opts w0 w Ep. apply (Shift_run_stopped h opts w0 w H D e Ep).
    by rewrite check_unfold.
Qed.

Lemma mismatch_reported_in_check_order_witness :
  let H := [Demo.row 1 "Create users" "abc" true] in
  let D := [Demo.unit 1 "Create users" "xyz"; Demo.unit 2 "Add index" "def"] in
  last_succeeded H
  ∧ H !! 0%nat = Some (Demo.row 1 "Create users" "abc" true)
  ∧ D !! 0%nat = Some (Demo.unit 1 "Create users" "xyz")
  ∧ "abc" ≠ "xyz"
  ∧ Shift.checkAppliedMigrations H D = Throw (ChecksumMismatch "abc" "xyz").
Proof.
  intros H D.
  assert (last_succeeded H) as Hlast by (intros lm [= <-]; reflexivity).
  assert ("abc" ≠ "xyz") as Hne by discriminate.
  split_and!; [exact Hlast | reflexivity | reflexivity | exact Hne |].
  destruct (mismatch_reported_in_check_order H D 0
              (Demo.row 1 "Create users" "abc" true) (Demo.unit 1 "Create users" "xyz")
              Hlast eq_refl eq_refl Hne) as (j & am' & m' & e & _ & _ & _ & _ & _ & Ee & _ & Hsum & _).
  rewrite Ee. f_equal. apply Hsum; [|reflexivity|reflexivity].
  intros k am'' m'' Hk. inversion Hk.
Defined.

(** The claim C2 as it stands fails: the checksums at index 0 differ, yet
    the versions differ too, and the version is compared first. *)
Lemma checksum_mismatch_not_always_reported :
  let H := [Demo.row 1 "Create users" "abc" true] in
  let D := [Demo.unit 2 "Create users" "xyz"] in
  last_succeeded H
  ∧ (∃ am m, H !! 0%nat = Some am ∧ D !! 0%nat = Some m
             ∧ Row.checksum am ≠ Migration.checksum m)
  ∧ Shift.checkAppliedMigrations H D = Throw (VersionMismatch 1 2)
  ∧ ¬ ∃ applied defined,
        Shift.checkAppliedMigrations H D = Throw (ChecksumMismatch applied defined).
Proof.
  intros H D. split_and!.
  - intros lm [= <-]. reflexivity.
  - eexists _, _. split_and!; [reflexivity | reflexivity | discriminate].
  - reflexivity.
  - intros (applied & defined & E). discriminate E.
Qed.

(** C3.  When the last applied record has [success = false],
    [checkAppliedMigrations] throws the halted-history error whatever the
    other records and the definitions are, so before any version, name or
    checksum is compared, and the run ends with that error after set-up: no
    unit is executed and nothing is written. *)
Theorem halted_history_takes_precedence (H : list Row.t) (D : list Migration.t) (lm : Row.t) :
  last H = Some lm →
  Row.success lm = false →
  Shift.checkAppliedMigrations H D = Throw (HaltedHistory (Row.version lm) (Row.name lm))
  ∧ ∀ h opts w0 w,
      Shift.prepare h opts w0 = (Ok (H, D), w) →
      Shift.migrate h opts w0 = (Throw (HaltedHistory (Row.version lm) (Row.name lm)), w)
      ∧ ledger w = ledger w0 ∧ cluster w = cluster w0
      ∧ ∃ es, since w0 w es ∧ quiet es.
Proof.
  intros El Hs.
  assert (Shift.checkAppliedMigrations H D
          = Throw (HaltedHistory (Row.version lm) (Row.name lm))) as Ec.
  { unfold Shift.checkAppliedMigrations.
    destruct H as [|r H]; [done|].
    destruct (last_lookup_length (r :: H)) as [E|]; [|done].
    change (length (r :: H) =? 0)%nat with false. cbv iota.
    by rewrite E, El, Hs. }
  split; [done|]. intros h opts w0 w Ep. by apply (Shift_run_stopped h opts w0 w H D).
Qed.

Lemma halted_history_takes_precedence_witness :
  let H := [Demo.row 1 "Create users" "abc" true; Demo.row 2 "Add index" "def" false] in
  let D := [Demo.unit 7 "Renamed" "xyz"] in
  last H = Some (Demo.row 2 "Add index" "def" false)
  ∧ Row.success (Demo.row 2 "Add index" "def" false) = false
  ∧ Shift.checkAppliedMigrations H D = Throw (HaltedHistory 2 "Add index").
Proof.
  intros H D. split; [reflexivity|]. split; [reflexivity|].
  exact (proj1 (halted_history_takes_precedence H D
                  (Demo.row 2 "Add index" "def" false) eq_refl eq_refl)).
Defined.

(** C9.  In a run in which reconciliation succeeds and no definition lies
    beyond the applied history, [migrate] returns normally without calling
    [execute] on any unit, without writing to the ledger and without a
    per-unit notification; the ledger and the cluster are as before. *)
Theorem empty_pending_is_noop (h : Host) (opts : Options.t) (w0 w : World)
    (H : list Row.t) (D : list Migration.t) :
  Shift.prepare h opts w0 = (Ok (H, D), w) →
  Shift.checkAppliedMigrations H D = Ok tt →
  (length D ≤ length H)%nat →
  ∃ w' es,
    Shift.migrate h opts w0 = (Ok tt, w')
    ∧ since w0 w' es
    ∧ writes_of es = [] ∧ applied_of es = [] ∧ executed_of es = []
    ∧ ledger w' = ledger w0 ∧ cluster w' = cluster w0.
Proof.
  intros Ep Ec Hlen.
  destruct (Shift_prepare_ok _ _ _ _ _ _ Ep) as (_ & _ & L & C & _).
  destruct (Shift_run h opts w0 w H D (Ok tt) (log (Emitted checkedAppliedMigrations) w)
              [Emitted checkedAppliedMigrations]) as (es0 & Hq & Em & Hs).
  { done. }
  { rewrite Shift_reconcile_unfold, Ec. by rewrite drop_ge by lia. }
  { done. }
  eexists _, _. split; [exact Em|]. split; [exact Hs|].
  destruct (quiet_observed es0 [Emitted checkedAppliedMigrations] Hq) as (-> & -> & ->).
  by split_and!.
Qed.

Lemma empty_pending_is_noop_witness :
  let h := Demo.host "migrations" Demo.two_files in
  let w0 := Demo.world Demo.two_rows [] in
  ∃ H D w,
    Shift.prepare h Demo.opts w0 = (Ok (H, D), w)
    ∧ Shift.checkAppliedMigrations H D = Ok tt
    ∧ (length D ≤ length H)%nat
    ∧ ∃ w' es,
        Shift.migrate h Demo.opts w0 = (Ok tt, w')
        ∧ since w0 w' es
        ∧ writes_of es = [] ∧ applied_of es = [] ∧ executed_of es = []
        ∧ ledger w' = ledger w0 ∧ cluster w' = cluster w0.
Proof.
  intros h w0.
  destruct (Shift.prepare h Demo.opts w0) as [[[H D]|e] w] eqn:Ep;
    [|vm_compute in Ep; discriminate Ep].
  assert (Shift.checkAppliedMigrations H D = Ok tt) as Ec
    by (vm_compute in Ep; injection Ep as <- <- <-; vm_compute; reflexivity).
  assert (length D ≤ length H)%nat as Hlen
    by (vm_compute in Ep; injection Ep as <- <- <-; vm_compute; lia).
  exists H, D, w. split; [reflexivity|]. split; [exact Ec|]. split; [exact Hlen|].
  exact (empty_pending_is_noop h Demo.opts w0 w H D Ep Ec Hlen).
Defined.

(** C4, as amended.  In a run with pending units [before ++ u :: after]
    where, from the cluster as set-up left it, the payloads of [before]
    return normally one after the other and that of [u] then throws [e], and
    where the driver serves the ledger writes of [before] and of [u]:
    [migrate] throws [e] itself; the ledger writes are one per unit of
    [before ++ [u]], in order, each with the unit's version, name, type and
    checksum, with [success = true] for [before] and [success = false] for
    [u]; the write for [u] is the last effect of the run and its row is in
    the ledger when [e] is thrown; [execute] is called on the units of
    [before ++ [u]] and on no unit of [after]. *)
Theorem first_failure_recorded_then_rethrown (h : Host) (opts : Options.t) (w0 w : World)
    (H : list Row.t) (D before after : list Migration.t) (u : Migration.t)
    (ck c' : Cluster) (e : Error) :
  Shift.prepare h opts w0 = (Ok (H, D), w) →
  Shift.checkAppliedMigrations H D = Ok tt →
  drop (length H) D = before ++ u :: after →
  all_succeed client_array before (cluster w) = Some ck →
  Migration.execute u client_array ck = (c', Some e) →
  served_next (S (length before)) w →
  ∃ w' es,
    Shift.migrate h opts w0 = (Throw e, w')
    ∧ since w0 w' es
    ∧ length (writes_of es) = S (length before)
    ∧ outcome_of <$> writes_of es = ((λ m, outcome m true) <$> before) ++ [outcome u false]
    ∧ executed_of es = identity <$> (before ++ [u])
    ∧ applied_of es = announced <$> before
    ∧ ∃ row,
        last es = Some (Served (InsertInto (Shift.migrationTable opts) row))
        ∧ outcome_of row = outcome u false
        ∧ row ∈ ledger w'.
Proof.
  intros Ep Ec Ed Hall Hu Hserved.
  destruct (each_until_failure opts before u after (log (Emitted checkedAppliedMigrations) w)
              ck c' e) as (w' & es & Er & Hs & Hw & Hx & Ha & row & Hl & Hrow & Hin).
  { done. }
  { done. }
  { intros i message Hi. by apply Hserved. }
  destruct (Shift_run h opts w0 w H D (Throw e) w' ([Emitted checkedAppliedMigrations] ++ es))
    as (es0 & Hq & Em & Hs').
  { done. }
  { by rewrite Shift_reconcile_unfold, Ec, Ed. }
  { unfold since in *. rewrite Hs. simpl. by rewrite <- app_assoc. }
  exists w', (es0 ++ [Emitted checkedAppliedMigrations] ++ es).
  destruct (quiet_observed es0 ([Emitted checkedAppliedMigrations] ++ es) Hq) as (-> & -> & ->).
  change (writes_of ([Emitted checkedAppliedMigrations] ++ es)) with (writes_of es).
  change (executed_of ([Emitted checkedAppliedMigrations] ++ es)) with (executed_of es).
  change (applied_of ([Emitted checkedAppliedMigrations] ++ es)) with (applied_of es).
  split_and!; [done | done | | done | done | done |].
  - rewrite <- (length_fmap outcome_of), Hw, length_app, length_fmap. simpl. lia.
  - exists row. split_and!; [|done|done].
    rewrite !last_app. by rewrite Hl.
Qed.

Lemma first_failure_recorded_then_rethrown_witness :
  let h := Demo.host "migrations" Demo.three_scripts in
  let w0 := Demo.world [] [] in
  let D := Demo.loaded "migrations" Demo.three_scripts in
  let before := take 1 D in
  let u := default Demo.nobody (D !! 1%nat) in
  ∃ w' es,
    Shift.migrate h Demo.opts w0 = (Throw (External "Invalid query"), w')
    ∧ since w0 w' es
    ∧ length (writes_of es) = 2%nat
    ∧ outcome_of <$> writes_of es = ((λ m, outcome m true) <$> before) ++ [outcome u false]
    ∧ executed_of es = identity <$> (before ++ [u])
    ∧ applied_of es = announced <$> before
    ∧ ∃ row,
        last es = Some (Served (InsertInto "migration_history" row))
        ∧ outcome_of row = outcome u false
        ∧ row ∈ ledger w'.
Proof.
  intros h w0 D before u.
  apply (first_failure_recorded_then_rethrown h Demo.opts w0
           (Shift.prepare h Demo.opts w0).2 [] D before (drop 2 D) u
           (mkCluster ["CREATE TABLE users"] 1001) (mkCluster ["CREATE TABLE users"] 1002)
           (External "Invalid query")).
  - vm_compute. reflexivity.
  - reflexivity.
  - vm_compute. reflexivity.
  - vm_compute. reflexivity.
  - vm_compute. reflexivity.
  - intros i message Hi. vm_compute. by destruct i.
Defined.

(** The claim C4 as it stands fails when the driver rejects the write of
    the failed unit: the [execute] of the only pending unit throws (it is a
    [.cql] unit, which calls [execute] on the array it is handed), the
    [INSERT] is rejected with "Write timeout", and the run ends with the
    driver's error and no record of the attempt. *)
Lemma rejected_write_hides_failure :
  let h := Demo.host "migrations" [("1__drop_missing.cql", Demo.bad_statement)] in
  let w0 := Demo.world [] [None; None; Some "Write timeout"] in
  let run := Shift.migrate h Demo.opts w0 in
  (∃ u, Demo.loaded "migrations" [("1__drop_missing.cql", Demo.bad_statement)] = [u]
        ∧ (Migration.execute u client_array (cluster w0)).2
          = Some (TypeError "cassandraClient.execute is not a function"))
  ∧ run.1 = Throw (External "Write timeout")
  ∧ writes_of (trace run.2) = []
  ∧ ledger run.2 = []
  ∧ executed_of (trace run.2) = [(1, "Drop missing")].
Proof.
  intros h w0 run. split_and!.
  - eexists. split; reflexivity.
  - reflexivity.
  - reflexivity.
  - reflexivity.
  - reflexivity.
Qed.

(** ** Two runs in a row *)

Lemma check_ok_inv H D :
  Shift.checkAppliedMigrations H D = Ok tt →
  last_succeeded H ∧ Shift.check_from (length H) 0 H D = Ok tt.
Proof.
  unfold Shift.checkAppliedMigrations. destruct H as [|r H]; [by intros _; split; [intros ? [=]|]|].
  destruct (last_lookup_length (r :: H)) as [E|]; [|done].
  change (length (r :: H) =? 0)%nat with false. cbv iota. rewrite E.
  destruct (last (r :: H)) as [lm|] eqn:El; [|done].
  destruct (Row.success lm) eqn:Es; [|done]. simpl. intros Ec. split; [|done].
  intros lm' El'. congruence.
Qed.

Lemma check_ok_agrees H D j am m :
  Shift.checkAppliedMigrations H D = Ok tt →
  H !! j = Some am → D !! j = Some m → agrees am m.
Proof.
  intros [_ Ec]%check_ok_inv Eam Em.
  destruct (decide (agrees am m)) as [|Hno]; [done|].
  pose proof (lookup_lt_Some _ _ _ Eam).
  destruct (check_from_disagree H D (length H) 0 j am m) as (e & Ee & _);
    [lia | lia | done | done | done | congruence].
Qed.







(** ** File names *)

Lemma span_spec p s taken rest :
  span p s = (taken, rest) →
  s = taken +:+ rest ∧ string_forallb p taken = true ∧ stops p rest.
Proof.
  revert taken rest. induction s as [|c s IH]; intros taken rest; simpl.
  - by intros [= <- <-].
  - destruct (p c) eqn:Ec.
    + destruct (span p s) as [taken' rest']. intros [= <- <-].
      destruct (IH taken' rest' eq_refl) as (-> & Hall & Hstop).
      simpl. by rewrite Ec, Hall.
    + by intros [= <- <-].
Qed.

Lemma span_app p taken rest :
  string_forallb p taken = true → stops p rest → span p (taken +:+ rest) = (taken, rest).
Proof.
  intros Hall Hstop. induction taken as [|c taken IH]; simpl in *.
  - destruct rest as [|c rest]; [done|]. simpl in *. by rewrite Hstop.
  - apply andb_prop in Hall as [-> Hall]. by rewrite IH.
Qed.

Lemma literal_spec lit s rest : literal lit s = Some rest ↔ s = lit +:+ rest.
Proof.
  revert s. induction lit as [|a lit IH]; intros s; simpl.
  - split; [by intros [= ->] | by intros ->].
  - destruct s as [|c s]; [done|]. case_bool_decide as Hc.
    + subst c. rewrite IH. split; [by intros -> | by intros [= ->]].
    + split; [done | intros [= ? _]; congruence].
Qed.

Lemma match_pattern_sound filename m :
  match_pattern filename = Some m →
  index m = 0%nat
  ∧ filename = group1 m +:+ "__" +:+ group2 m +:+ "." +:+ group3 m
  ∧ group1 m ≠ EmptyString
  ∧ string_forallb is_digit (group1 m) = true
  ∧ string_forallb is_word (group2 m) = true
  ∧ (group3 m = "js" ∨ group3 m = "cql").
Proof.
  unfold match_pattern.
  destruct (span is_digit filename) as [digits after_digits] eqn:Ed.
  apply span_spec in Ed as (-> & Hdigits & _).
  case_bool_decide as Hne; [done|].
  destruct (literal "__" after_digits) as [after_sep|] eqn:Esep; [|done].
  apply literal_spec in Esep as ->. cbn [mbind option_bind].
  destruct (span is_word after_sep) as [word after_word] eqn:Ew.
  apply span_spec in Ew as (-> & Hword & _).
  destruct (literal "." after_word) as [ext|] eqn:Edot; [|done].
  apply literal_spec in Edot as ->. cbn [mbind option_bind].
  destruct (bool_decide (ext = "js") || bool_decide (ext = "cql")) eqn:Eext; [|done].
  intros [= <-]. simpl. split_and!; try done.
  apply orb_prop in Eext as [E|E]; apply bool_decide_eq_true in E; auto.
Qed.

Lemma match_pattern_complete digits word ext :
  digits ≠ EmptyString →
  string_forallb is_digit digits = true →
  string_forallb is_word word = true →
  ext = "js" ∨ ext = "cql" →
  match_pattern (digits +:+ "__" +:+ word +:+ "." +:+ ext)
  = Some (mkMatch 0 digits word ext).
Proof.
  intros Hne Hdigits Hword Hext. unfold match_pattern.
  rewrite (span_app is_digit digits) by done.
  rewrite bool_decide_eq_false_2 by done.
  rewrite (proj2 (literal_spec "__" _ (word +:+ "." +:+ ext)) eq_refl). cbn [mbind option_bind].
  rewrite (span_app is_word word) by done.
  rewrite (proj2 (literal_spec "." _ ext) eq_refl). cbn [mbind option_bind].
  by destruct Hext as [-> | ->].
Qed.

(** [match_pattern] answers [null] exactly on the names outside the
    language of the expression. *)
Lemma match_pattern_None filename :
  match_pattern filename = None ↔ ¬ matches_pattern filename.
Proof.
  split.
  - intros E (digits & word & ext & -> & Hne & Hd & Hw & Hext).
    by rewrite match_pattern_complete in E.
  - intros Hno. destruct (match_pattern filename) as [m|] eqn:E; [|done].
    destruct Hno. apply match_pattern_sound in E as (_ & ? & ? & ? & ? & ?).
    by exists (group1 m), (group2 m), (group3 m).
Qed.

(** ** Loading *)

Lemma construct_and_load_identity h type path version name m :
  construct_and_load h type path version name = Ok m →
  Migration.version m = version ∧ Migration.name m = name.
Proof.
  unfold construct_and_load, JsMigration.new, CqlMigration.new.
  repeat case_bool_decide; [| |done].
  - destruct (loadScript h path); [|done]. by intros [= <-].
  - destruct (CqlMigration.load h path); [|done]. by intros [= <-].
Qed.

Lemma Shift_loadAvailableMigration_version h dir file r :
  Shift.loadAvailableMigration h dir file = Ok r →
  Migration.version <$> r = (λ m, parseInt (group1 m)) <$> match_pattern file.
Proof.
  unfold Shift.loadAvailableMigration.
  destruct (match_pattern file) as [m|] eqn:Em; [|by intros [= <-]].
  apply match_pattern_sound in Em as (-> & _). simpl.
  destruct (prettyName (group2 m)) as [name|]; [|done]. simpl.
  destruct (construct_and_load h (group3 m) _ _ name) as [migration|] eqn:Ec; [|done].
  apply construct_and_load_identity in Ec as [Ev _]. intros [= <-]. simpl. by rewrite Ev.
Qed.

Lemma Shift_load_each_versions h dir files :
  (∀ file, file ∈ files → ∃ r, Shift.loadAvailableMigration h dir file = Ok r) →
  ∀ migrations, ∃ D,
    Shift.load_each h dir files migrations = Ok D
    ∧ Migration.version <$> D = (Migration.version <$> migrations) ++ listed_versions files.
Proof.
  induction files as [|file files IH]; intros Hload migrations; simpl.
  - exists migrations. by rewrite app_nil_r.
  - destruct (Hload file) as [r Er]; [by left|]. rewrite Er. simpl.
    destruct (IH (λ f Hf, Hload f (list_elem_of_further _ _ _ Hf))
                (match r with Some m => migrations ++ [m] | None => migrations end))
      as (D & -> & Ev).
    exists D. split; [done|]. rewrite Ev.
    apply Shift_loadAvailableMigration_version in Er. unfold listed_versions. simpl.
    rewrite <- Er. destruct r as [m|]; simpl; [|done].
    by rewrite fmap_app, <- app_assoc.
Qed.

(** A name outside the pattern is passed over. *)
Lemma Shift_unmatched_file_skipped h dir file :
  ¬ matches_pattern file →
  Shift.loadAvailableMigration h dir file = Ok None
  ∧ ∀ before after migrations,
      Shift.load_each h dir (before ++ file :: after) migrations
      = Shift.load_each h dir (before ++ after) migrations.
Proof.
  intros Hno%match_pattern_None.
  assert (Shift.loadAvailableMigration h dir file = Ok None) as E
    by (unfold Shift.loadAvailableMigration; by rewrite Hno).
  split; [done|]. intros before after.
  induction before as [|f before IH]; intros migrations; simpl.
  - by rewrite E.
  - destruct (Shift.loadAvailableMigration h dir f) as [r|]; [|done]. simpl. apply IH.
Qed.

(** The loader keeps the order of the listing: when each file of the
    listing loads, the available units come out one per matching name and in
    the order of the directory listing, so their versions are the versions
    that the names announce, in listing order; the list is in ascending order
    of version exactly when the listing presents the matching names in that
    order. *)
Lemma available_in_listing_order (h : Host) (dir : string) (files : list string) :
  readdirSync h dir = Ok files →
  (∀ file, file ∈ files → ∃ r, Shift.loadAvailableMigration h dir file = Ok r) →
  ∃ D,
    Shift.loadAvailableMigrations h dir = Ok D
    ∧ Migration.version <$> D = listed_versions files
    ∧ (Sorted Z.le (Migration.version <$> D) ↔ Sorted Z.le (listed_versions files)).
Proof.
  intros Edir Hload. unfold Shift.loadAvailableMigrations. rewrite Edir. simpl.
  destruct (Shift_load_each_versions h dir files Hload []) as (D & -> & Ev).
  exists D. simpl in Ev. by rewrite Ev.
Qed.

Lemma available_in_listing_order_witness :
  let h := Demo.host "migrations" Demo.two_files in
  let files := ["1__create_users.cql"; "2__add_index.cql"] in
  listed_versions files = [1; 2]
  ∧ ∃ D,
      Shift.loadAvailableMigrations h "migrations" = Ok D
      ∧ Migration.version <$> D = listed_versions files
      ∧ (Sorted Z.le (Migration.version <$> D) ↔ Sorted Z.le (listed_versions files)).
Proof.
  intros h files. split; [reflexivity|].
  apply (available_in_listing_order h "migrations" files).
  - reflexivity.
  - intros file Hfile. apply list_elem_of_In in Hfile.
    destruct Hfile as [<-|[<-|[]]]; eexists; vm_compute; reflexivity.
Defined.

(** A listing in alphabetical order puts version 10 before version 2, and
    the list of available units keeps that order. *)
Lemma listing_order_is_kept :
  let h := Demo.host "migrations" DemoListings.alphabetical in
  readdirSync h "migrations" = Ok ["10__add_index.cql"; "2__create_users.cql"]
  ∧ Migration.version <$> Demo.loaded "migrations" DemoListings.alphabetical = [10; 2]
  ∧ (∃ D, Shift.loadAvailableMigrations h "migrations" = Ok D
          ∧ ¬ Sorted Z.le (Migration.version <$> D)).
Proof.
  intros h. split_and!; [reflexivity | reflexivity |].
  exists (Demo.loaded "migrations" DemoListings.alphabetical). split; [by vm_compute|].
  change (Migration.version <$> Demo.loaded "migrations" DemoListings.alphabetical)
    with [10; 2].
  intros Hs. apply Sorted_inv in Hs as [_ Hhd]. apply HdRel_inv in Hhd. lia.
Qed.

(** C6 fails: [loadAvailableMigrations] hands on the units in the order of
    the directory listing and never orders them by version, and neither does
    the older [loadMigrations].  A listing in alphabetical order names
    version 10 before version 2, and so come the units.  The applied history
    is sorted by version and compared with the units index by index, so the
    order of the units matters to the engine: on a ledger that holds the rows
    of exactly these two definitions, both applied with success, the run
    stops with a version mismatch before anything is executed.  And so does
    the run that follows a first run which went through: with the same two
    definitions as scripts and an empty ledger, the first run applies
    version 10, then version 2, and returns normally, and the next run, on
    the directory as it is, stops with the version mismatch. *)
Theorem Shift_definitions_in_listing_order :
  let h := Demo.host "migrations" DemoListings.alphabetical in
  let run := Shift.migrate h Demo.opts (Demo.world DemoListings.both_applied []) in
  let hs := Demo.host "migrations" DemoListings.alphabetical_scripts in
  let first := Shift.migrate hs Demo.opts (Demo.world [] []) in
  let second := Shift.migrate hs Demo.opts first.2 in
  readdirSync h "migrations" = Ok ["10__add_index.cql"; "2__create_users.cql"]
  ∧ (∃ D, Shift.loadAvailableMigrations h "migrations" = Ok D
          ∧ Migration.version <$> D = [10; 2]
          ∧ ¬ Sorted Z.le (Migration.version <$> D)
          ∧ Forall (λ m, ∃ row, row ∈ DemoListings.both_applied
                                ∧ agrees row m ∧ Row.success row = true) D)
  ∧ (∃ D, Legacy.loadMigrations h "migrations" = Ok D
          ∧ Migration.version <$> D = [10; 2])
  ∧ run.1 = Throw (VersionMismatch 2 10)
  ∧ executed_of (trace run.2) = []
  ∧ writes_of (trace run.2) = []
  ∧ first.1 = Ok tt
  ∧ executed_of (trace first.2) = [(10, "Add index"); (2, "Create users")]
  ∧ Row.version <$> ledger first.2 = [10; 2]
  ∧ second.1 = Throw (VersionMismatch 2 10)
  ∧ ledger second.2 = ledger first.2.
Proof.
  intros h run hs first second.
  split_and!; [reflexivity | | | by vm_compute..].
  - exists (Demo.loaded "migrations" DemoListings.alphabetical).
    split; [by vm_compute|].
    change (Migration.version <$> Demo.loaded "migrations" DemoListings.alphabetical)
      with [10; 2].
    split_and!; [reflexivity | |].
    + intros Hs. apply Sorted_inv in Hs as [_ Hhd]. apply HdRel_inv in Hhd. lia.
    + repeat constructor.
      * eexists. split; [by left|]. by split.
      * eexists. split; [right; by left|]. by split.
  - eexists. split; [by vm_compute | reflexivity].
Qed.

(** ** Reading the history *)

(** What [Shift.getAppliedMigrations] returns is the whole ledger in
    ascending order of version: nothing is dropped, an empty ledger gives an
    empty history, and the read returns whenever the driver serves it. *)
Theorem Shift_history_sorted (table : string) (w : World) :
  (∀ rows w', Shift.getAppliedMigrations table w = (Ok rows, w') →
     Sorted version_le rows ∧ rows ≡ₚ ledger w ∧ (ledger w = [] → rows = []))
  ∧ ((∀ message later, faults w ≠ Some message :: later) →
     ∃ w', Shift.getAppliedMigrations table w = (Ok (sort Shift.by_version (ledger w)), w')).
Proof.
  split.
  - intros rows w' E. unfold Shift.getAppliedMigrations in E.
    apply bind_inv_ok in E as (rows0 & w1 & E1 & E). injection E as <- <-.
    apply client_execute_select in E1 as ->.
    split_and!; [apply sort_Sorted | apply sort_Permutation | by intros ->].
  - intros Hserved. unfold Shift.getAppliedMigrations, mbind, M_bind, client_execute.
    destruct (faults w) as [|[message|] later]; simpl; [by eexists | | by eexists].
    by destruct (Hserved message later).
Qed.

(** C7 fails on the older runner: it hands the rows on in the order in
    which the cluster returns them.  With five applied versions that order
    is 5, 1, 2, 4, 3, and reconciliation against the very definitions that
    were applied then reports a version mismatch.  The [Shift] class sorts
    the same rows into 1, 2, 3, 4, 5. *)
Theorem Legacy_history_in_storage_order :
  let w := Demo.world Demo.five_rows [] in
  (∃ rows w', Legacy.getAppliedMigrations w = (Ok rows, w')
              ∧ Row.version <$> rows = [5; 1; 2; 4; 3]
              ∧ ¬ Sorted version_le rows
              ∧ Legacy.checkAppliedMigrations rows Demo.five_units
                = Throw (VersionMismatch 5 1))
  ∧ (∃ rows w', Shift.getAppliedMigrations "migration_history" w = (Ok rows, w')
                ∧ Row.version <$> rows = [1; 2; 3; 4; 5]
                ∧ Shift.checkAppliedMigrations rows Demo.five_units = Ok tt).
Proof.
  intros w. split.
  - eexists _, _. split; [reflexivity|]. split_and!; [reflexivity | | reflexivity].
    intros Hs. apply Sorted_inv in Hs as [_ Hhd]. apply HdRel_inv in Hhd.
    unfold version_le in Hhd. simpl in Hhd. lia.
  - eexists _, _. split; [reflexivity|]. split; reflexivity.
Qed.

(** ** Definitions removed after they were applied *)

(** [Shift.checkAppliedMigrations] passes over the applied records that have
    no definition any more. *)
Theorem Shift_removed_definitions_tolerated (H : list Row.t) (D : list Migration.t) :
  (length D < length H)%nat →
  last_succeeded H →
  Forall2 agrees (take (length D) H) D →
  Shift.checkAppliedMigrations H D = Ok tt.
Proof.
  intros Hlen Hlast Hag. rewrite check_unfold by done.
  apply check_from_agree; [done|]. intros j am m _ Eam Em.
  pose proof (lookup_lt_Some _ _ _ Em) as Hj.
  apply (Forall2_lookup_lr _ _ _ j am m Hag); [|done].
  by rewrite lookup_take_lt.
Qed.

Lemma Shift_removed_definitions_tolerated_witness :
  let H := [Demo.row 1 "Create users" "abc" true; Demo.row 2 "Add index" "def" true] in
  let D := [Demo.unit 1 "Create users" "abc"] in
  Shift.checkAppliedMigrations H D = Ok tt.
Proof.
  intros H D. apply Shift_removed_definitions_tolerated.
  - simpl. lia.
  - intros lm [= <-]. reflexivity.
  - repeat constructor.
Defined.

(** C8 fails on the older runner: for an applied record with no definition
    left it reads [m.version] of [undefined], which throws.  The [Shift]
    class returns normally on the same lists. *)
Theorem Legacy_removed_definition_throws :
  let H := [Demo.row 1 "Create users" "abc" true; Demo.row 2 "Add index" "def" true] in
  let D := [Demo.unit 1 "Create users" "abc"] in
  last_succeeded H
  ∧ Forall2 agrees (take (length D) H) D
  ∧ Legacy.checkAppliedMigrations H D
    = Throw (TypeError "Cannot read properties of undefined (reading 'version')")
  ∧ Shift.checkAppliedMigrations H D = Ok tt.
Proof.
  intros H D. split_and!; [| repeat constructor | reflexivity | reflexivity].
  intros lm [= <-]. reflexivity.
Qed.

(** ** Names outside the pattern *)

Lemma Legacy_unmatched_file_rejected h dir file :
  ¬ matches_pattern file →
  Legacy.loadMigration h dir file
  = Throw (TypeError "Cannot read properties of null (reading 'index')").
Proof.
  intros Hno%match_pattern_None. unfold Legacy.loadMigration. by rewrite Hno.
Qed.

(** C10 fails on the older runner: it reads [match.index] of [null] for a
    name outside the pattern, which throws and ends the loading.  The
    [Shift] class passes over the name and loads the two definitions. *)
Theorem Legacy_unmatched_file_throws :
  let h := Demo.host "migrations" DemoListings.with_readme in
  ¬ matches_pattern "README.md"
  ∧ readdirSync h "migrations"
    = Ok ["1__create_users.cql"; "2__add_index.cql"; "README.md"]
  ∧ Legacy.loadMigration h "migrations" "README.md"
    = Throw (TypeError "Cannot read properties of null (reading 'index')")
  ∧ Legacy.loadMigrations h "migrations"
    = Throw (TypeError "Cannot read properties of null (reading 'index')")
  ∧ Shift.loadAvailableMigration h "migrations" "README.md" = Ok None
  ∧ ∃ D, Shift.loadAvailableMigrations h "migrations" = Ok D
         ∧ identity <$> D = [(1, "Create users"); (2, "Add index")].
Proof.
  intros h.
  assert (¬ matches_pattern "README.md") as Hno by (by apply match_pattern_None).
  split_and!; [done | reflexivity | reflexivity | reflexivity | reflexivity |].
  exists (Demo.loaded "migrations" DemoListings.with_readme). split; [by vm_compute | reflexivity].
Qed.

(** ** The older runner on the claims it shares *)

(** Halted history (C3): the same test comes first in the older runner. *)
Lemma Legacy_halted_history H D lm :
  last H = Some lm →
  Row.success lm = false →
  Legacy.checkAppliedMigrations H D = Throw (HaltedHistory (Row.version lm) (Row.name lm))
  ∧ ∀ w, Legacy.reconcile_and_apply H D w
         = (Throw (HaltedHistory (Row.version lm) (Row.name lm)), w).
Proof.
  intros El Hs.
  assert (Legacy.checkAppliedMigrations H D
          = Throw (HaltedHistory (Row.version lm) (Row.name lm))) as Ec.
  { unfold Legacy.checkAppliedMigrations.
    destruct H as [|r H]; [done|].
    destruct (last_lookup_length (r :: H)) as [E|]; [|done].
    change (length (r :: H) =? 0)%nat with false. cbv iota.
    by rewrite E, El, Hs. }
  split; [done|]. intros w. by rewrite Legacy_reconcile_unfold, Ec.
Qed.

(** Mismatch (C2, as amended): the comparisons and their order are the
    same. *)
Lemma Legacy_check_from_disagree H D count i j am m :
  (i + count ≤ length H)%nat → (i ≤ j < i + count)%nat →
  H !! j = Some am → D !! j = Some m → ¬ agrees am m →
  ∃ e, Legacy.check_from count i H D = Throw e ∧ mismatch e.
Proof.
  revert i. induction count as [|count IH]; intros i Hlen Hj Eam Em Hno; [lia|].
  pose proof (lookup_lt_Some _ _ _ Em) as HjD.
  destruct (lookup_lt_is_Some_2 H i) as [am' Eam']; [lia|].
  destruct (lookup_lt_is_Some_2 D i) as [m' Em']; [lia|].
  simpl. rewrite Eam', Em'.
  repeat case_bool_decide; try (eexists; split; [reflexivity | exact I]).
  destruct (decide (j = i)) as [->|].
  - exfalso. apply Hno. unfold agrees. split_and!; congruence.
  - apply IH; [lia | lia | done | done | done].
Qed.

Lemma Legacy_mismatch_reported H D i am m :
  last_succeeded H →
  H !! i = Some am → D !! i = Some m →
  Row.checksum am ≠ Migration.checksum m →
  ∃ e, Legacy.checkAppliedMigrations H D = Throw e ∧ mismatch e
       ∧ ∀ w, Legacy.reconcile_and_apply H D w = (Throw e, w).
Proof.
  intros Hlast Eam Em Hc.
  pose proof (lookup_lt_Some _ _ _ Eam) as Hi.
  destruct (Legacy_check_from_disagree H D (length H) 0 i am m) as (e & Ee & Hm);
    [lia | lia | done | done | by intros (_ & _ & ?) |].
  assert (Legacy.checkAppliedMigrations H D = Throw e) as Ec.
  { unfold Legacy.checkAppliedMigrations.
    destruct H as [|r H]; [done|].
    destruct (last_lookup_length (r :: H)) as [E|]; [|done].
    change (length (r :: H) =? 0)%nat with false. cbv iota. rewrite E.
    destruct (last (r :: H)) as [lm|] eqn:El; [|by apply last_None in El].
    by rewrite (Hlast lm). }
  exists e. split_and!; [done | done |]. intros w. by rewrite Legacy_reconcile_unfold, Ec.
Qed.

(** Empty pending set (C9): the older runner has no notifications; it
    returns normally and leaves the world as set-up left it. *)
Lemma Legacy_empty_pending_is_noop h opts w0 w H D :
  Legacy.prepare h opts w0 = (Ok (H, D), w) →
  Legacy.checkAppliedMigrations H D = Ok tt →
  (length D ≤ length H)%nat →
  Legacy.module_exports h opts w0 = (Ok tt, w)
  ∧ ledger w = ledger w0 ∧ cluster w = cluster w0
  ∧ ∃ es, since w0 w es ∧ quiet es.
Proof.
  intros Ep Ec Hlen.
  destruct (Legacy_prepare_ok _ _ _ _ _ _ Ep) as (_ & _ & L & C & es & Hs & Hq).
  split_and!; [|done|done|by exists es].
  rewrite (Legacy_prepared _ _ _ _ _ _ Ep), Legacy_reconcile_unfold, Ec.
  by rewrite drop_ge by lia.
Qed.

(** Order of the available units (C6): the older loader keeps the order of
    the listing as well. *)
Example Legacy_listing_order_is_kept :
  ∃ D, Legacy.loadMigrations (Demo.host "migrations" DemoListings.alphabetical) "migrations"
       = Ok D
       ∧ Migration.version <$> D = [10; 2].
Proof. eexists. split; [by vm_compute | reflexivity]. Qed.

(** ** The scenarios of the specification *)

(** Two definitions and an empty ledger: both are applied in order and the
    ledger has versions 1 and 2, both successful. *)
Example scenario_fresh_ledger :
  let run := Shift.migrate (Demo.host "migrations" Demo.two_scripts) Demo.opts (Demo.world [] []) in
  run.1 = Ok tt
  ∧ outcome_of <$> ledger run.2
    = [(1, "Create users", "JS", "#CREATE TABLE users", true);
       (2, "Add index", "JS", "#CREATE INDEX i", true)]
  ∧ executed_of (trace run.2) = [(1, "Create users"); (2, "Add index")]
  ∧ applied_of (trace run.2) = [(1, "Create users", "JS"); (2, "Add index", "JS")].
Proof. by vm_compute. Qed.

(** A statement file under the [Shift] class: its [execute] is handed the
    array of clients and throws before a statement is sent; the attempt is
    recorded as failed and the run ends with the [TypeError].  The older
    runner, which hands its client over, applies the same file. *)
Example scenario_statement_file :
  let h := Demo.host "migrations" [("1__create_users.cql", "CREATE TABLE users")] in
  let run := Shift.migrate h Demo.opts (Demo.world [] []) in
  let run' := Legacy.module_exports h Demo.opts (Demo.world [] []) in
  run.1 = Throw (TypeError "cassandraClient.execute is not a function")
  ∧ outcome_of <$> ledger run.2
    = [(1, "Create users", "CQL", "#CREATE TABLE users", false)]
  ∧ schema (cluster run.2) = []
  ∧ run'.1 = Ok tt
  ∧ outcome_of <$> ledger run'.2
    = [(1, "create_users", "CQL", "#CREATE TABLE users", true)]
  ∧ schema (cluster run'.2) = ["CREATE TABLE users"].
Proof. by vm_compute. Qed.

(** Version 1 was applied with checksum "abc" and is now defined with
    another content: the run fails before version 2 is touched. *)
Example scenario_changed_checksum :
  let w0 := Demo.world [Demo.row 1 "Create users" "abc" true] [] in
  let run := Shift.migrate (Demo.host "migrations" Demo.two_files) Demo.opts w0 in
  run.1 = Throw (ChecksumMismatch "abc" "#CREATE TABLE users")
  ∧ ledger run.2 = ledger w0
  ∧ executed_of (trace run.2) = []
  ∧ writes_of (trace run.2) = [].
Proof. by vm_compute. Qed.

(** Samples of the helpers on strings. *)
Example match_pattern_samples :
  match_pattern "1__create_users.cql" = Some (mkMatch 0 "1" "create_users" "cql")
  ∧ match_pattern "001___a.js" = Some (mkMatch 0 "001" "_a" "js")
  ∧ match_pattern "1__.cql" = Some (mkMatch 0 "1" "" "cql")
  ∧ match_pattern "1__a[b].js" = Some (mkMatch 0 "1" "a[b]" "js")
  ∧ match_pattern "README.md" = None
  ∧ match_pattern "1_a.js" = None
  ∧ match_pattern "a1__b.js" = None
  ∧ match_pattern "1__a.cqlx" = None
  ∧ match_pattern "1__a-b.cql" = None.
Proof. by vm_compute. Qed.

Example string_samples :
  parseInt "0012" = 12
  ∧ parseInt "9007199254740993" = 9007199254740992
  ∧ parseInt "9007199254740995" = 9007199254740996
  ∧ prettyName "create_users" = Ok "Create users"
  ∧ prettyName "_x" = Ok " x"
  ∧ (∃ what, prettyName "" = Throw (TypeError what))
  ∧ splitStatements "a;b" = ["a;b"]
  ∧ splitStatements ("a;" +:+ String LF "b") = ["a"; "b"]
  ∧ splitStatements ("a;" +:+ String LF "") = ["a"; ""]
  ∧ splitStatements "" = [""].
Proof. split_and!; try reflexivity. by eexists. Qed.

(** * Further properties of the code *)

(** ** Display names *)

Lemma replace_underscores_length s :
  String.length (replace_underscores s) = String.length s.
Proof. induction s as [|c s IH]; simpl; congruence. Qed.

Lemma replace_underscores_clean s :
  string_forallb not_underscore (replace_underscores s) = true.
Proof.
  induction s as [|c s IH]; simpl; [done|]. rewrite IH, andb_true_r.
  unfold not_underscore. destruct (decide (c = "_"%char)) as [->|Hc].
  - done.
  - by rewrite (bool_decide_eq_false_2 _ Hc), (bool_decide_eq_false_2 _ Hc).
Qed.

Lemma replace_underscores_id s :
  string_forallb not_underscore s = true → replace_underscores s = s.
Proof.
  induction s as [|c s IH]; simpl; [done|].
  intros [Hc Hs]%andb_prop. rewrite IH by done.
  unfold not_underscore in Hc. apply negb_true_iff in Hc. by rewrite Hc.
Qed.

Lemma toUpperCase_not_lower c : is_lower (toUpperCase c) = false.
Proof.
  unfold toUpperCase, is_lower.
  destruct ((97 <=? nat_of_ascii c)%nat && (nat_of_ascii c <=? 122)%nat) eqn:E; [|done].
  apply andb_prop in E as [E1%Nat.leb_le E2%Nat.leb_le].
  rewrite nat_ascii_embedding by lia.
  apply andb_false_iff. left. apply Nat.leb_gt. lia.
Qed.

Lemma toUpperCase_not_underscore c :
  not_underscore c = true → not_underscore (toUpperCase c) = true.
Proof.
  unfold toUpperCase.
  destruct ((97 <=? nat_of_ascii c)%nat && (nat_of_ascii c <=? 122)%nat) eqn:E; [|done].
  intros _. apply andb_prop in E as [E1%Nat.leb_le E2%Nat.leb_le].
  unfold not_underscore. rewrite bool_decide_eq_false_2; [done|].
  intros Heq. apply (f_equal nat_of_ascii) in Heq.
  rewrite nat_ascii_embedding in Heq by lia.
  change (nat_of_ascii "_") with 95%nat in Heq. lia.
Qed.

Lemma toUpperCase_fixed c : is_lower c = false → toUpperCase c = c.
Proof. unfold toUpperCase, is_lower. by intros ->. Qed.

Lemma prettyName_cases name :
  match prettyName name with
  | Throw e => name = EmptyString ∧ ∃ what, e = TypeError what
  | Ok pretty =>
      name ≠ EmptyString
      ∧ String.length pretty = String.length name
      ∧ string_forallb not_underscore pretty = true
      ∧ ∃ c rest, pretty = String c rest ∧ is_lower c = false
  end.
Proof.
  unfold prettyName.
  pose proof (replace_underscores_length name) as Hlen.
  pose proof (replace_underscores_clean name) as Hclean.
  destruct name as [|c0 name]; [by split; [|eexists]|].
  destruct (replace_underscores (String c0 name)) as [|c rest]; [done|].
  simpl in *. apply andb_prop in Hclean as [Hc Hrest].
  split_and!; [done | done | | ].
  - by rewrite toUpperCase_not_underscore.
  - eexists _, _. split; [done|]. apply toUpperCase_not_lower.
Qed.

(** X1.  On a name made of the word characters of the file-name pattern,
    which is what the loader hands it, [prettyName] throws exactly when the
    name is empty.  On every other such name it returns a name of the same
    length that holds no underscore and does not start with a lower-case
    letter. *)
Theorem prettyName_shape (name : string) :
  string_forallb is_word name = true →
  match prettyName name with
  | Throw e => name = EmptyString ∧ ∃ what, e = TypeError what
  | Ok pretty =>
      name ≠ EmptyString
      ∧ String.length pretty = String.length name
      ∧ string_forallb not_underscore pretty = true
      ∧ ∃ c rest, pretty = String c rest ∧ is_lower c = false
  end.
Proof. intros _. apply prettyName_cases. Qed.

Lemma prettyName_shape_witness :
  string_forallb is_word "create_users" = true
  ∧ match prettyName "create_users" with
    | Throw e => "create_users" = EmptyString ∧ ∃ what, e = TypeError what
    | Ok pretty =>
        "create_users" ≠ EmptyString
        ∧ String.length pretty = String.length "create_users"
        ∧ string_forallb not_underscore pretty = true
        ∧ ∃ c rest, pretty = String c rest ∧ is_lower c = false
    end.
Proof. split; [reflexivity|]. exact (prettyName_shape "create_users" eq_refl). Defined.

(** X2.  A name that [prettyName] returned is left as it is by
    [prettyName]. *)
Theorem prettyName_idempotent (name pretty : string) :
  prettyName name = Ok pretty → prettyName pretty = Ok pretty.
Proof.
  intros E. pose proof (prettyName_cases name) as Hshape. rewrite E in Hshape.
  destruct Hshape as (_ & _ & Hclean & c & rest & -> & Hc).
  unfold prettyName. rewrite replace_underscores_id by done.
  by rewrite toUpperCase_fixed.
Qed.

Lemma prettyName_idempotent_witness :
  prettyName "create_users" = Ok "Create users"
  ∧ prettyName "Create users" = Ok "Create users".
Proof.
  split; [reflexivity|].
  exact (prettyName_idempotent "create_users" "Create users" eq_refl).
Defined.

(** ** File names and what is loaded from them *)

(** X3.  The pattern of the loaders matches exactly the names of the shape
    digits, two underscores, word characters, a dot, [js] or [cql]; the
    three groups it captures are these digits, word characters and
    extension, and the match always starts at index 0, so that the test
    [match.index !== 0] never sends a matched name away. *)
Theorem pattern_captures (filename : string) :
  (∀ m, match_pattern filename = Some m → index m = 0%nat)
  ∧ ∀ digits word ext,
      match_pattern filename = Some (mkMatch 0 digits word ext)
      ↔ filename = digits +:+ "__" +:+ word +:+ "." +:+ ext
        ∧ digits ≠ EmptyString
        ∧ string_forallb is_digit digits = true
        ∧ string_forallb is_word word = true
        ∧ (ext = "js" ∨ ext = "cql").
Proof.
  split.
  - intros m E. by apply match_pattern_sound in E as (? & _).
  - intros digits word ext. split.
    + intros E. apply match_pattern_sound in E as (_ & ? & ? & ? & ? & ?). done.
    + intros (-> & ? & ? & ? & ?). by apply match_pattern_complete.
Qed.

Lemma to_double_exact n : n < 9007199254740992 → to_double n = n.
Proof. intros Hn. unfold to_double. by rewrite (proj2 (Z.ltb_lt _ _) Hn). Qed.

(** [to_double] is rounding to the nearest number whose significand has 53
    bits, a tie going to the even significand, with 2^1024 for what lies
    beyond the doubles. *)
Lemma to_double_nearest n :
  2 ^ 53 ≤ n →
  ∃ q e,
    0 < e ∧ 2 ^ (e + 52) ≤ n < 2 ^ (e + 53)
    ∧ 2 ^ 52 ≤ q ≤ 2 ^ 53
    ∧ to_double n = Z.min (q * 2 ^ e) (2 ^ 1024)
    ∧ 2 * Z.abs (q * 2 ^ e - n) ≤ 2 ^ e
    ∧ (2 * Z.abs (q * 2 ^ e - n) = 2 ^ e → Z.even q = true).
Proof.
  intros Hn. unfold to_double.
  assert ((n <? 9007199254740992) = false) as -> by (apply Z.ltb_ge; exact Hn).
  cbv zeta.
  assert (53 ≤ Z.log2 n) as Hlog.
  { change 53 with (Z.log2 (2 ^ 53)). apply Z.log2_le_mono. exact Hn. }
  set (e := Z.log2 n - 52).
  assert (0 < e) as He by (unfold e; lia).
  destruct (Z.log2_spec n) as [Hlo Hhi]; [lia|].
  replace (Z.log2 n) with (e + 52) in Hlo by (unfold e; lia).
  replace (Z.succ (Z.log2 n)) with (e + 53) in Hhi by (unfold e; lia).
  rewrite Z.shiftr_div_pow2 by lia.
  rewrite !Z.shiftl_mul_pow2 by lia.
  change (1 * 2 ^ 1024) with (2 ^ 1024).
  rewrite Z.mul_1_l.
  set (P := 2 ^ e) in *.
  assert (0 < P) as HP by (unfold P; apply Z.pow_pos_nonneg; lia).
  assert (2 ^ (e + 52) = 2 ^ 52 * P) as E52 by (unfold P; rewrite Z.pow_add_r by lia; lia).
  assert (2 ^ (e + 53) = 2 ^ 53 * P) as E53 by (unfold P; rewrite Z.pow_add_r by lia; lia).
  assert (P = 2 * 2 ^ (e - 1)) as EP.
  { unfold P. replace e with (1 + (e - 1)) at 1 by lia. rewrite Z.pow_add_r by lia. lia. }
  set (half := 2 ^ (e - 1)) in *.
  pose proof (Z.div_mod n P ltac:(lia)) as Hdm.
  pose proof (Z.mod_pos_bound n P HP) as Hr.
  set (q0 := n / P) in *. set (r := n mod P) in *.
  assert (2 ^ 52 ≤ q0 < 2 ^ 53) as Hq0.
  { rewrite E52 in Hlo. rewrite E53 in Hhi. split.
    - apply Z.div_le_lower_bound; lia.
    - apply Z.div_lt_upper_bound; lia. }
  replace (n - q0 * P) with r by lia.
  destruct ((half <? r) || ((r =? half) && Z.odd q0)) eqn:Eup.
  - exists (q0 + 1), e. split; [exact He|]. split; [lia|]. split; [lia|].
    split; [reflexivity|].
    assert (half ≤ r) as Hge.
    { apply orb_prop in Eup as [E|E].
      - apply Z.ltb_lt in E. lia.
      - apply andb_prop in E as [E _]. apply Z.eqb_eq in E. lia. }
    replace ((q0 + 1) * P - n) with (P - r) by lia.
    rewrite Z.abs_eq by lia. split; [lia|].
    intros Htie. assert (r = half) as Er by lia.
    apply orb_prop in Eup as [E|E].
    + apply Z.ltb_lt in E. lia.
    + apply andb_prop in E as [_ E]. rewrite Z.even_add. rewrite <- Z.negb_odd, E. reflexivity.
  - exists q0, e. split; [exact He|]. split; [lia|]. split; [lia|].
    split; [reflexivity|].
    apply orb_false_elim in Eup as [E1 E2]. apply Z.ltb_ge in E1.
    replace (q0 * P - n) with (- r) by lia.
    rewrite Z.abs_neq by lia. split; [lia|].
    intros Htie. assert (r = half) as Er by lia.
    apply andb_false_iff in E2 as [E2|E2].
    + apply Z.eqb_neq in E2. lia.
    + rewrite <- Z.negb_odd, E2. reflexivity.
Qed.

Lemma to_double_nonneg n : 0 ≤ n → 0 ≤ to_double n.
Proof.
  intros Hn. unfold to_double. destruct (n <? 9007199254740992); [done|].
  cbv zeta. apply Z.min_glb; apply Z.shiftl_nonneg; [|done].
  assert (0 ≤ Z.shiftr n (Z.log2 n - 52)) by by apply Z.shiftr_nonneg.
  destruct (_ || _); lia.
Qed.

Lemma construct_and_load_cql h path version name m :
  construct_and_load h "cql" path version name = Ok m →
  ∃ cql,
    loadFile h path = Ok cql
    ∧ m = Migration.mk version name "CQL" (checksum_of h cql) path (CqlMigration.execute h cql).
Proof.
  unfold construct_and_load, CqlMigration.new, CqlMigration.load. simpl.
  destruct (loadFile h path) as [cql|]; [|done]. intros [= <-]. by exists cql.
Qed.

(** X4.  A unit that [loadAvailableMigration] returns for a [.cql] file
    carries as its version what [parseInt] makes of the digits of the file
    name, which is the number they spell as long as that is below 2^53, and
    beyond that the double nearest to it ([Infinity] in the end); as its name
    the display form of the word part; the path of the file under the
    directory; and the checksum of the content of that file.  Its [execute]
    is that of [CqlMigration] on this content. *)
Theorem Shift_loaded_cql_unit (h : Host) (dir digits word : string) (m : Migration.t) :
  Shift.loadAvailableMigration h dir (digits +:+ "__" +:+ word +:+ ".cql") = Ok (Some m) →
  string_forallb is_digit digits = true →
  string_forallb is_word word = true →
  ∃ cql,
    loadFile h (dir +:+ "/" +:+ digits +:+ "__" +:+ word +:+ ".cql") = Ok cql
    ∧ prettyName word = Ok (Migration.name m)
    ∧ m = Migration.mk (parseInt digits) (Migration.name m) "CQL" (checksum_of h cql)
            (dir +:+ "/" +:+ digits +:+ "__" +:+ word +:+ ".cql")
            (CqlMigration.execute h cql)
    ∧ (spelled digits < 2 ^ 53 → Migration.version m = spelled digits).
Proof.
  intros E Hd Hw. unfold Shift.loadAvailableMigration in E.
  change (digits +:+ "__" +:+ word +:+ ".cql")
    with (digits +:+ "__" +:+ word +:+ "." +:+ "cql") in E.
  destruct digits as [|d digits].
  { by vm_compute in E. }
  rewrite (match_pattern_complete (String d digits) word "cql") in E by (done || by right).
  simpl in E.
  destruct (prettyName word) as [name|] eqn:En; [|done]. simpl in E.
  destruct (construct_and_load h "cql" _ _ name) as [migration|] eqn:Ec; [|done].
  injection E as <-.
  apply construct_and_load_cql in Ec as (cql & Ef & ->).
  exists cql. split_and!; [done..|]. simpl. apply to_double_exact.
Qed.

Lemma Shift_loaded_cql_unit_witness :
  let h := Demo.host "migrations" Demo.two_files in
  ∃ m cql,
    Shift.loadAvailableMigration h "migrations" "1__create_users.cql" = Ok (Some m)
    ∧ loadFile h "migrations/1__create_users.cql" = Ok cql
    ∧ prettyName "create_users" = Ok (Migration.name m)
    ∧ m = Migration.mk 1 (Migration.name m) "CQL" (checksum_of h cql)
            "migrations/1__create_users.cql" (CqlMigration.execute h cql)
    ∧ Migration.version m = 1.
Proof.
  intros h.
  destruct (Shift.loadAvailableMigration h "migrations" "1__create_users.cql")
    as [[m|]|] eqn:E; [|by vm_compute in E..].
  destruct (Shift_loaded_cql_unit h "migrations" "1" "create_users" m E eq_refl eq_refl)
    as (cql & Ef & En & Em & Ev).
  exists m, cql. split_and!; [done..|]. by apply Ev.
Defined.

Lemma match_pattern_shape digits word ext :
  digits ≠ EmptyString →
  string_forallb is_digit digits = true →
  string_forallb is_word word = true →
  match_pattern (digits +:+ "__" +:+ word +:+ "." +:+ ext)
  = if bool_decide (ext = "js") || bool_decide (ext = "cql")
    then Some (mkMatch 0 digits word ext) else None.
Proof.
  intros Hne Hdigits Hword. unfold match_pattern.
  rewrite (span_app is_digit digits) by done.
  rewrite bool_decide_eq_false_2 by done.
  rewrite (proj2 (literal_spec "__" _ (word +:+ "." +:+ ext)) eq_refl). cbn [mbind option_bind].
  rewrite (span_app is_word word) by done.
  by rewrite (proj2 (literal_spec "." _ ext) eq_refl).
Qed.

Lemma parseInt_from_nonneg s acc : 0 ≤ acc → 0 ≤ parseInt_from acc s.
Proof.
  revert acc. induction s as [|c s IH]; intros acc Hacc; simpl; [done|].
  destruct (is_digit c) eqn:Ec; [|done]. apply IH.
  unfold is_digit in Ec. apply andb_prop in Ec as [E1%Nat.leb_le _].
  unfold digit_value. lia.
Qed.

Lemma parseInt_nonneg s : 0 ≤ parseInt s.
Proof. apply to_double_nonneg. by apply parseInt_from_nonneg. Qed.

(** X5.  Zeros in front of the digits do not change the version, which is
    never negative: the files [digits__word.ext] and [0digits__word.ext]
    load, when they load, as two units of the same version and name. *)
Theorem Shift_leading_zero_same_version (h : Host) (dir digits word ext : string)
    (m1 m2 : Migration.t) :
  Shift.loadAvailableMigration h dir (digits +:+ "__" +:+ word +:+ "." +:+ ext) = Ok (Some m1) →
  Shift.loadAvailableMigration h dir ("0" +:+ digits +:+ "__" +:+ word +:+ "." +:+ ext)
  = Ok (Some m2) →
  string_forallb is_digit digits = true →
  string_forallb is_word word = true →
  Migration.version m1 = Migration.version m2
  ∧ Migration.name m1 = Migration.name m2
  ∧ 0 ≤ Migration.version m1.
Proof.
  intros E1 E2 Hd Hw.
  assert (∀ ds m, string_forallb is_digit ds = true →
            Shift.loadAvailableMigration h dir (ds +:+ "__" +:+ word +:+ "." +:+ ext) = Ok (Some m) →
            Migration.version m = parseInt ds ∧ prettyName word = Ok (Migration.name m)) as Hone.
  { intros ds m Hds E. unfold Shift.loadAvailableMigration in E.
    destruct (match_pattern (ds +:+ "__" +:+ word +:+ "." +:+ ext)) as [mt|] eqn:Em; [|done].
    assert (mt = mkMatch 0 ds word ext) as ->.
    { destruct ds as [|d ds]; [vm_compute in Em; discriminate Em|].
      rewrite match_pattern_shape in Em by done.
      destruct (bool_decide (ext = "js") || bool_decide (ext = "cql")); congruence. }
    simpl in E. destruct (prettyName word) as [name|]; [|done]. simpl in E.
    destruct (construct_and_load h ext _ _ name) as [migration|] eqn:Ec; [|done].
    injection E as <-. by apply construct_and_load_identity in Ec as [-> ->]. }
  destruct (Hone digits m1 Hd E1) as [V1 N1].
  destruct (Hone (String "0" digits) m2) as [V2 N2]; [done | done |].
  rewrite V1, V2. split_and!; [done | congruence |].
  apply parseInt_nonneg.
Qed.

Lemma Shift_leading_zero_same_version_witness :
  let h := Demo.host "migrations" DemoListings2.padded in
  ∃ m1 m2,
    Shift.loadAvailableMigration h "migrations" "7__add_index.cql" = Ok (Some m1)
    ∧ Shift.loadAvailableMigration h "migrations" "07__add_index.cql" = Ok (Some m2)
    ∧ Migration.version m1 = Migration.version m2
    ∧ Migration.name m1 = Migration.name m2
    ∧ 0 ≤ Migration.version m1.
Proof.
  intros h.
  destruct (Shift.loadAvailableMigration h "migrations" "7__add_index.cql")
    as [[m1|]|] eqn:E1; [|by vm_compute in E1..].
  destruct (Shift.loadAvailableMigration h "migrations" "07__add_index.cql")
    as [[m2|]|] eqn:E2; [|by vm_compute in E2..].
  exists m1, m2. split; [reflexivity|]. split; [reflexivity|].
  exact (Shift_leading_zero_same_version h "migrations" "7" "add_index" "cql" m1 m2
           E1 E2 eq_refl eq_refl).
Defined.

(** X6.  A file whose name has nothing between the two underscores and the
    dot matches the pattern, and [Shift.loadAvailableMigration] throws a
    [TypeError] on it, before the file is read, because [prettyName] reads
    [spaced[0]] of the empty string.  The older [loadMigration] does not
    format the name and loads the file under the empty name. *)
Theorem Shift_empty_name_throws (h : Host) (dir digits ext : string) :
  digits ≠ EmptyString →
  string_forallb is_digit digits = true →
  ext = "js" ∨ ext = "cql" →
  (∃ what, Shift.loadAvailableMigration h dir (digits +:+ "__" +:+ "." +:+ ext)
           = Throw (TypeError what))
  ∧ Legacy.loadMigration h dir (digits +:+ "__" +:+ "." +:+ ext)
    = (migration ← construct_and_load h ext (dir +:+ "/" +:+ digits +:+ "__" +:+ "." +:+ ext)
                      (parseInt digits) EmptyString;
       Ok (Some migration)).
Proof.
  intros Hne Hd Hext.
  pose proof (match_pattern_complete digits EmptyString ext Hne Hd eq_refl Hext) as Em.
  change (digits +:+ "__" +:+ "" +:+ "." +:+ ext)
    with (digits +:+ "__" +:+ "." +:+ ext) in Em.
  unfold Shift.loadAvailableMigration, Legacy.loadMigration. rewrite Em. simpl.
  split; [by eexists | done].
Qed.

Lemma Shift_empty_name_throws_witness :
  let h := Demo.host "migrations" DemoListings2.with_empty_name in
  (∃ what, Shift.loadAvailableMigration h "migrations" "2__.cql" = Throw (TypeError what))
  ∧ ∃ m, Legacy.loadMigration h "migrations" "2__.cql" = Ok (Some m)
         ∧ Migration.name m = EmptyString.
Proof.
  intros h.
  destruct (Shift_empty_name_throws h "migrations" "2" "cql") as [Hs Hl];
    [discriminate | reflexivity | by right |].
  split; [exact Hs|].
  change ("2" +:+ "__" +:+ "." +:+ "cql") with "2__.cql" in Hl. rewrite Hl.
  eexists. split; [vm_compute; reflexivity | reflexivity].
Defined.

Lemma Shift_load_each_abort h dir before file after e :
  (∀ f, f ∈ before → ∃ r, Shift.loadAvailableMigration h dir f = Ok r) →
  Shift.loadAvailableMigration h dir file = Throw e →
  ∀ migrations, Shift.load_each h dir (before ++ file :: after) migrations = Throw e.
Proof.
  intros Hbefore Efile. induction before as [|f before IH]; intros migrations; simpl.
  - by rewrite Efile.
  - destruct (Hbefore f) as [r ->]; [by left|]. simpl.
    apply IH. intros f' Hf'. apply Hbefore. by right.
Qed.

(** X7.  The first file of the listing on which [loadAvailableMigration]
    throws ends [loadAvailableMigrations] with that error: the definitions
    loaded before it are given up and the files after it are not looked
    at. *)
Theorem Shift_load_stops_at_first_failure (h : Host) (dir : string)
    (before after : list string) (file : string) (e : Error) :
  readdirSync h dir = Ok (before ++ file :: after) →
  (∀ f, f ∈ before → ∃ r, Shift.loadAvailableMigration h dir f = Ok r) →
  Shift.loadAvailableMigration h dir file = Throw e →
  Shift.loadAvailableMigrations h dir = Throw e.
Proof.
  intros Edir Hbefore Efile. unfold Shift.loadAvailableMigrations. rewrite Edir. simpl.
  by apply Shift_load_each_abort.
Qed.

Lemma Shift_load_stops_at_first_failure_witness :
  let h := Demo.host "migrations" DemoListings2.with_empty_name in
  ∃ what, Shift.loadAvailableMigrations h "migrations" = Throw (TypeError what).
Proof.
  intros h. eexists.
  apply (Shift_load_stops_at_first_failure h "migrations" ["1__create_users.cql"] [] "2__.cql").
  - reflexivity.
  - intros f Hf. apply list_elem_of_singleton in Hf as ->. eexists. vm_compute. reflexivity.
  - reflexivity.
Defined.

(** ** CqlMigration: splitting and executing the statements *)

Lemma string_pair_ind (P : string → Prop) :
  P EmptyString →
  (∀ c, P (String c EmptyString)) →
  (∀ c d s, P s → P (String d s) → P (String c (String d s))) →
  ∀ s, P s.
Proof.
  intros H0 H1 H2 s.
  assert (P s ∧ ∀ c, P (String c s)) as [? _]; [|done].
  induction s as [|d s [IHs IHd]]; [by split|].
  split; [apply IHd|]. intros c. by apply H2.
Qed.

Lemma splitStatements_cons c d s :
  splitStatements (String c (String d s)) =
    if bool_decide (c = ";"%char) && bool_decide (d = LF)
    then EmptyString :: splitStatements s
    else match splitStatements (String d s) with
         | piece :: pieces => String c piece :: pieces
         | [] => [String c EmptyString]
         end.
Proof. reflexivity. Qed.

Lemma splitStatements_first d s :
  ∃ pieces,
    splitStatements (String d s) = EmptyString :: pieces
    ∨ ∃ p, splitStatements (String d s) = String d p :: pieces.
Proof.
  destruct s as [|d' s]; [exists []; right; by exists EmptyString|].
  rewrite splitStatements_cons.
  destruct (bool_decide (d = ";"%char) && bool_decide (d' = LF)); [by eexists; left|].
  destruct (splitStatements (String d' s)) as [|piece pieces];
    eexists; right; by eexists.
Qed.

Lemma join_cons_head sep c piece pieces :
  join sep (String c piece :: pieces) = String c (join sep (piece :: pieces)).
Proof. by destruct pieces. Qed.

Lemma splitStatements_join s : join statement_separator (splitStatements s) = s.
Proof.
  induction s as [| c | c d s IHs IHd] using string_pair_ind; [done | done |].
  rewrite splitStatements_cons.
  destruct (bool_decide (c = ";"%char) && bool_decide (d = LF)) eqn:E.
  - apply andb_prop in E as [->%bool_decide_eq_true ->%bool_decide_eq_true].
    destruct (splitStatements_first ";" EmptyString) as [? _].
    destruct s as [|d s]; [done|].
    destruct (splitStatements_first d s) as (pieces & [Es | (p & Es)]);
      rewrite Es in IHs |- *; simpl in *; by rewrite IHs.
  - destruct (splitStatements_first d s) as (pieces & [Es | (p & Es)]);
      rewrite Es in IHd |- *; by rewrite join_cons_head, IHd.
Qed.

Lemma splitStatements_pieces s :
  Forall (λ piece, has_separator piece = false) (splitStatements s).
Proof.
  induction s as [| c | c d s IHs IHd] using string_pair_ind;
    [by repeat constructor | by repeat constructor |].
  rewrite splitStatements_cons.
  destruct (bool_decide (c = ";"%char) && bool_decide (d = LF)) eqn:E;
    [by constructor|].
  destruct (splitStatements_first d s) as (pieces & [Es | (p & Es)]);
    rewrite Es in IHd |- *; apply Forall_cons in IHd as [Hp Hps];
    (constructor; [|done]); [done|].
  change (has_separator (String c (String d p)))
    with ((bool_decide (c = ";"%char) && bool_decide (d = LF)) || has_separator (String d p)).
  by rewrite E, Hp.
Qed.

Lemma splitStatements_whole s : has_separator s = false → splitStatements s = [s].
Proof.
  induction s as [| c | c d s IHs IHd] using string_pair_ind; [done | done |].
  change (has_separator (String c (String d s)))
    with ((bool_decide (c = ";"%char) && bool_decide (d = LF)) || has_separator (String d s)).
  intros [E Hd]%orb_false_elim. rewrite splitStatements_cons, E, IHd; done.
Qed.

Lemma splitStatements_trailing s :
  splitStatements (s +:+ statement_separator) = splitStatements s ++ [EmptyString].
Proof.
  induction s as [| c | c d s IHs IHd] using string_pair_ind.
  - reflexivity.
  - change (String c "" +:+ statement_separator)
      with (String c (String ";" (String LF EmptyString))).
    rewrite splitStatements_cons.
    replace (bool_decide (";"%char = LF)) with false by (by vm_compute).
    by rewrite andb_false_r.
  - change (String c (String d s) +:+ statement_separator)
      with (String c (String d (s +:+ statement_separator))).
    rewrite !splitStatements_cons.
    destruct (bool_decide (c = ";"%char) && bool_decide (d = LF)); [by rewrite IHs|].
    change (String d (s +:+ statement_separator)) with (String d s +:+ statement_separator).
    rewrite IHd.
    by destruct (splitStatements_first d s) as (pieces & [-> | (p & ->)]).
Qed.

Lemma executeStatements_app h handed before after c :
  CqlMigration.executeStatements h handed (before ++ after) c =
    match CqlMigration.executeStatements h handed before c with
    | (c', None) => CqlMigration.executeStatements h handed after c'
    | (c', Some e) => (c', Some e)
    end.
Proof.
  revert c. induction before as [|cs before IH]; intros c; simpl; [done|].
  destruct (CqlMigration.executeStatement h handed cs c) as [c' [e|]]; [done | apply IH].
Qed.

(** X8.  The statements of a [.cql] content are its pieces between the
    separators (a semicolon followed by a line feed): there is always at
    least one piece, no piece holds a separator, and the pieces joined by
    the separator give the content back. *)
Theorem splitStatements_splits (cql : string) :
  splitStatements cql ≠ []
  ∧ Forall (λ piece, has_separator piece = false) (splitStatements cql)
  ∧ join statement_separator (splitStatements cql) = cql.
Proof.
  split_and!; [| apply splitStatements_pieces | apply splitStatements_join].
  destruct cql as [|c cql]; [done|].
  by destruct (splitStatements_first c cql) as (pieces & [-> | (p & ->)]).
Qed.

(** X9.  A content without a separator is one statement: [execute] makes
    one call of [executeStatement], with the whole content, so that on a
    client the content is sent to the cluster as one statement; so it is
    with the empty content, sent as the empty statement. *)
Theorem CqlMigration_single_statement (h : Host) (handed : Handed) (cql : string)
    (c : Cluster) :
  has_separator cql = false →
  CqlMigration.execute h cql handed c = CqlMigration.executeStatement h handed cql c.
Proof.
  intros Hs. unfold CqlMigration.execute. rewrite splitStatements_whole by done.
  simpl. by destruct (CqlMigration.executeStatement h handed cql c) as [c' [e|]].
Qed.

Lemma CqlMigration_single_statement_witness :
  let h := Demo.host "migrations" [] in
  CqlMigration.execute h EmptyString one_client (mkCluster [] 0)
  = (mkCluster [EmptyString] 1, None).
Proof.
  intros h.
  rewrite (CqlMigration_single_statement h one_client EmptyString (mkCluster [] 0) eq_refl).
  reflexivity.
Defined.

(** X10.  A separator at the end of the content adds an empty statement:
    the content followed by a separator is executed as the content is and,
    when that returns normally, the empty statement is sent last. *)
Theorem CqlMigration_trailing_separator (h : Host) (handed : Handed) (cql : string)
    (c : Cluster) :
  CqlMigration.execute h (cql +:+ statement_separator) handed c =
    match CqlMigration.execute h cql handed c with
    | (c', None) => CqlMigration.executeStatement h handed EmptyString c'
    | (c', Some e) => (c', Some e)
    end.
Proof.
  unfold CqlMigration.execute. rewrite splitStatements_trailing, executeStatements_app.
  destruct (CqlMigration.executeStatements h handed (splitStatements cql) c) as [c' [e|]];
    [done|].
  simpl. by destruct (CqlMigration.executeStatement h handed EmptyString c') as [c'' [e|]].
Qed.

(** X11.  The statements are sent in order and the first one that throws
    ends the execution with its error: the statements after it are not
    sent, whatever they are. *)
Theorem CqlMigration_stops_at_first_failure (h : Host) (handed : Handed)
    (before after : list string) (cs : string) (c ck c' : Cluster) (e : Error) :
  CqlMigration.executeStatements h handed before c = (ck, None) →
  CqlMigration.executeStatement h handed cs ck = (c', Some e) →
  CqlMigration.executeStatements h handed (before ++ cs :: after) c = (c', Some e).
Proof.
  intros Eb Ecs. rewrite executeStatements_app, Eb. simpl. by rewrite Ecs.
Qed.

Lemma CqlMigration_stops_at_first_failure_witness :
  let h := Demo.host "migrations" [] in
  CqlMigration.executeStatements h one_client
    (["CREATE TABLE users"] ++ Demo.bad_statement :: ["CREATE INDEX i"]) (mkCluster [] 0)
  = (mkCluster ["CREATE TABLE users"] 2, Some (External "Invalid query")).
Proof.
  intros h.
  apply (CqlMigration_stops_at_first_failure h one_client ["CREATE TABLE users"]
           ["CREATE INDEX i"] Demo.bad_statement (mkCluster [] 0)
           (mkCluster ["CREATE TABLE users"] 1));
    reflexivity.
Defined.

(** ** Reconciliation *)

(** X12.  [checkAppliedMigrations] returns normally exactly when the last
    applied record, if there is one, is a success and every applied record
    that has a definition at its index agrees with it in version, name and
    checksum.  Nothing else is looked at: not the type, not the times, not
    the success of earlier records, not the definitions beyond the
    history. *)
Theorem reconciliation_passes_iff (H : list Row.t) (D : list Migration.t) :
  Shift.checkAppliedMigrations H D = Ok tt
  ↔ last_succeeded H
    ∧ ∀ j am m, H !! j = Some am → D !! j = Some m → agrees am m.
Proof.
  split.
  - intros E. split; [by apply check_ok_inv in E as [? _]|].
    intros j am m. by apply check_ok_agrees.
  - intros [Hlast Hag]. rewrite check_unfold by done.
    apply check_from_agree; [done|]. intros j am m _. apply Hag.
Qed.

Lemma check_from_throws_mismatch H D count i e :
  (i + count ≤ length H)%nat →
  Shift.check_from count i H D = Throw e → mismatch e.
Proof.
  revert i. induction count as [|count IH]; intros i Hlen; [done|].
  rewrite check_from_step. destruct (D !! i) as [m|]; [|apply IH; lia].
  destruct (lookup_lt_is_Some_2 H i) as [am ->]; [lia|].
  destruct (difference am m) as [e'|] eqn:Ed; [|apply IH; lia].
  intros [= <-]. by eapply difference_mismatch.
Qed.

(** X13.  The only errors that [Shift.checkAppliedMigrations] throws are
    the four it creates: halted history and the three mismatches.  It never
    fails on a missing record or definition. *)
Theorem reconciliation_errors (H : list Row.t) (D : list Migration.t) (e : Error) :
  Shift.checkAppliedMigrations H D = Throw e → reconciliation_error e.
Proof.
  unfold Shift.checkAppliedMigrations. destruct H as [|r H]; [done|].
  destruct (last_lookup_length (r :: H)) as [E|]; [|done].
  change (length (r :: H) =? 0)%nat with false. cbv iota. rewrite E.
  destruct (last (r :: H)) as [lm|] eqn:El; [|by apply last_None in El].
  destruct (Row.success lm); cbn [negb].
  - intros Ec. apply check_from_throws_mismatch in Ec; [|lia]. by destruct e.
  - by intros [= <-].
Qed.

Lemma reconciliation_errors_witness :
  reconciliation_error (HaltedHistory 2 "Add index").
Proof.
  apply (reconciliation_errors
           [Demo.row 1 "Create users" "abc" true; Demo.row 2 "Add index" "def" false] []).
  reflexivity.
Defined.

Lemma Legacy_check_from_step H D count i :
  Legacy.check_from (S count) i H D =
    match H !! i, D !! i with
    | Some am, Some m =>
        match difference am m with
        | Some e => Throw e
        | None => Legacy.check_from count (S i) H D
        end
    | _, _ => Throw (TypeError "Cannot read properties of undefined (reading 'version')")
    end.
Proof.
  simpl. destruct (H !! i) as [am|]; [|done]. destruct (D !! i) as [m|]; [|done].
  unfold difference. by repeat case_bool_decide.
Qed.

Lemma Legacy_check_from_Shift H D count i :
  (i + count ≤ length H)%nat → (i ≤ length D)%nat →
  Legacy.check_from count i H D =
    match Shift.check_from count i H D with
    | Throw e => Throw e
    | Ok _ =>
        if bool_decide (length D < i + count)%nat
        then Throw (TypeError "Cannot read properties of undefined (reading 'version')")
        else Ok tt
    end.
Proof.
  revert i. induction count as [|count IH]; intros i Hlen HiD.
  - simpl. by rewrite bool_decide_eq_false_2 by lia.
  - rewrite check_from_step, Legacy_check_from_step.
    destruct (lookup_lt_is_Some_2 H i) as [am ->]; [lia|].
    destruct (D !! i) as [m|] eqn:Em.
    + pose proof (lookup_lt_Some _ _ _ Em).
      destruct (difference am m); [done|].
      rewrite IH by lia. by replace (S i + count)%nat with (i + S count)%nat by lia.
    + apply lookup_ge_None in Em.
      rewrite check_from_agree; [by rewrite bool_decide_eq_true_2 by lia | lia |].
      intros j am' m' Hj _ Em'. apply lookup_lt_Some in Em'. lia.
Qed.

(** X14.  The two variants of [checkAppliedMigrations] throw the same
    errors, and differ in one case only: where the [Shift] class returns
    normally although more records are applied than definitions exist, the
    older runner throws a [TypeError]. *)
Theorem Legacy_reconciliation_from_Shift (H : list Row.t) (D : list Migration.t) :
  Legacy.checkAppliedMigrations H D =
    match Shift.checkAppliedMigrations H D with
    | Throw e => Throw e
    | Ok _ =>
        if bool_decide (length D < length H)%nat
        then Throw (TypeError "Cannot read properties of undefined (reading 'version')")
        else Ok tt
    end.
Proof.
  unfold Legacy.checkAppliedMigrations, Shift.checkAppliedMigrations.
  destruct H as [|r H]; [done|].
  change (length (r :: H) =? 0)%nat with false. cbv iota.
  destruct ((r :: H) !! (length (r :: H) - 1)%nat) as [lm|]; [|done].
  destruct (Row.success lm); [|done]. simpl negb. cbv iota.
  rewrite Legacy_check_from_Shift by lia. done.
Qed.

(** ** Set-up *)

Lemma client_execute_served s w :
  (∀ message later, faults w ≠ Some message :: later) →
  client_execute s w
  = (Ok (perform s w).1,
     mkWorld (cluster w) (ledger (perform s w).2) (tail (faults w)) (trace w ++ [Served s])).
Proof.
  intros Hs. destruct w as [c rows fs tr]. unfold client_execute. simpl.
  destruct fs as [|[message|] later].
  - destruct s; reflexivity.
  - exfalso. by apply (Hs message later).
  - destruct s; reflexivity.
Qed.

Lemma served_next_le n n' w : (n ≤ n')%nat → served_next n' w → served_next n w.
Proof. intros Hle Hs i message Hi. apply Hs. lia. Qed.

Lemma setup_statements_le opts : (setup_statements opts ≤ 4)%nat.
Proof.
  unfold setup_statements.
  destruct (Options.ensureKeyspace opts), (Options.useKeyspace opts); simpl; lia.
Qed.

(** Set-up with a driver that serves its statements. *)
Lemma Shift_prepare_served h opts w :
  served_next (setup_statements opts) w →
  ∃ fs,
    Shift.prepare h opts w
    = ((D ← Shift.loadAvailableMigrations h (Options.dir opts);
        Ok (sort Shift.by_version (ledger w), D)),
       mkWorld (cluster w) (ledger w) fs (trace w ++ setup_effects opts)).
Proof.
  destruct w as [c rows fs tr].
  unfold served_next, setup_statements, Shift.prepare, setup_effects, Shift.ensureKeyspace,
    Shift.useKeyspace, Shift.ensureMigrationTable, Shift.getAppliedMigrations, mbind, M_bind,
    mret, M_ret, emit, lift, log, client_execute, perform, set_faults.
  destruct (Options.ensureKeyspace opts), (Options.useKeyspace opts); simpl; intros Hfs;
    destruct fs as [|[m1|] [|[m2|] [|[m3|] [|[m4|] fs]]]];
    try (by destruct (Hfs 0%nat m1); [lia|]);
    try (by destruct (Hfs 1%nat m2); [lia|]);
    try (by destruct (Hfs 2%nat m3); [lia|]);
    try (by destruct (Hfs 3%nat m4); [lia|]);
    simpl;
    destruct (Shift.loadAvailableMigrations h (Options.dir opts)); simpl;
    unfold log; simpl; rewrite <- ?app_assoc; simpl; by eexists.
Qed.

(** X15.  With a driver that serves them, the statements of set-up go out
    in a fixed order, each followed by its notification: the keyspace is
    created and selected only when the options ask for it, then the ledger
    table is created, then it is read; the table that both statements name
    is the one of the options.  What the driver does with the statements
    after set-up plays no part. *)
Theorem Shift_setup_order (h : Host) (opts : Options.t) (w : World) :
  served_next (setup_statements opts) w →
  ∃ r w' es,
    Shift.migrate h opts w = (r, w')
    ∧ since w w' (setup_effects opts ++ es).
Proof.
  intros Hs. destruct (Shift_prepare_served h opts w Hs) as (fs & Ep).
  destruct (Shift.loadAvailableMigrations h (Options.dir opts)) as [D|e]; simpl in Ep.
  - destruct (Shift.reconcile_and_apply opts (sort Shift.by_version (ledger w)) D
                (mkWorld (cluster w) (ledger w) fs (trace w ++ setup_effects opts)))
      as [r w'] eqn:Er.
    assert (∃ es, trace w' = (trace w ++ setup_effects opts) ++ es) as [es Hes].
    { rewrite Shift_reconcile_unfold in Er.
      destruct (Shift.checkAppliedMigrations _ D).
      - destruct (each_executed opts (drop (length (sort Shift.by_version (ledger w))) D)
                    (log (Emitted checkedAppliedMigrations)
                       (mkWorld (cluster w) (ledger w) fs (trace w ++ setup_effects opts))))
          as (r' & w'' & es & Er' & Hsince & _).
        rewrite Er' in Er. injection Er as <- <-.
        exists ([Emitted checkedAppliedMigrations] ++ es).
        unfold since in Hsince. simpl in Hsince. by rewrite Hsince, <- app_assoc.
      - injection Er as <- <-. exists []. by rewrite app_nil_r. }
    exists r, w', es. split.
    + by rewrite (Shift_migrate_prepared _ _ _ _ _ _ Ep).
    + unfold since. by rewrite Hes, <- app_assoc.
  - eexists (Throw e), _, []. split.
    + by rewrite (Shift_migrate_unprepared _ _ _ _ _ Ep).
    + unfold since. simpl. by rewrite app_nil_r.
Qed.

Lemma Shift_setup_order_witness :
  let h := Demo.host "migrations" Demo.two_scripts in
  let opts := Shift.new (Options.mk false true "prod" (Some "history") "migrations") in
  let w := Demo.world [] [None; None; None; Some "Write timeout"] in
  setup_statements opts = 3%nat
  ∧ setup_effects opts
    = [Served (Use "prod"); Emitted usedKeyspace;
       Served (CreateTableIfNotExists "history"); Emitted ensuredMigrationTable;
       Served (SelectAllFrom "history")]
  ∧ ∃ r w' es,
      Shift.migrate h opts w = (r, w') ∧ since w w' (setup_effects opts ++ es).
Proof.
  intros h opts w. split; [reflexivity|]. split; [reflexivity|].
  apply (Shift_setup_order h opts w).
  intros i message Hi. change (setup_statements opts) with 3%nat in Hi.
  destruct i as [|[|[|i]]]; [done | done | done | lia].
Defined.

(** X16.  When a definition cannot be loaded, every run throws after
    set-up at the latest: no unit is executed, not even one that loaded, and
    nothing is written to the ledger.  With a driver that serves the
    statements of set-up the error of the run is the error of the load. *)
Theorem Shift_unloadable_definition_stops_run (h : Host) (opts : Options.t) (e : Error)
    (w : World) :
  Shift.loadAvailableMigrations h (Options.dir opts) = Throw e →
  ∃ e' w' es,
    Shift.migrate h opts w = (Throw e', w')
    ∧ since w w' es ∧ quiet es
    ∧ ledger w' = ledger w ∧ cluster w' = cluster w
    ∧ (served_next 4 w → e' = e).
Proof.
  intros El.
  destruct (Shift.prepare h opts w) as [[[H D]|e'] w'] eqn:Ep.
  - apply Shift_prepare_ok in Ep as (_ & El' & _). congruence.
  - destruct (Shift_prepare_setup_like h opts _ _ _ Ep) as (L & C & es & Hs & Hq).
    exists e', w', es. rewrite (Shift_migrate_unprepared _ _ _ _ _ Ep).
    split_and!; [done..|]. intros Hserved.
    destruct (Shift_prepare_served h opts w) as (fs & Ep').
    { apply (served_next_le _ 4); [apply setup_statements_le | done]. }
    rewrite El in Ep'. simpl in Ep'. congruence.
Qed.

Lemma Shift_unloadable_definition_stops_run_witness :
  let h := Demo.host "migrations" DemoListings2.with_empty_name in
  let w := Demo.world [] [] in
  ∃ e' w' es,
    Shift.migrate h Demo.opts w = (Throw e', w')
    ∧ since w w' es ∧ quiet es
    ∧ ledger w' = ledger w ∧ cluster w' = cluster w
    ∧ (served_next 4 w →
       e' = TypeError "Cannot read properties of undefined (reading 'toUpperCase')").
Proof.
  intros h w.
  apply (Shift_unloadable_definition_stops_run h Demo.opts _ w). reflexivity.
Defined.

(** ** Runs *)

Lemma each_all_succeed opts ms w c' :
  all_succeed client_array ms (cluster w) = Some c' →
  served_next (length ms) w →
  ∃ w' es,
    each (step opts) ms w = (Ok tt, w')
    ∧ since w w' es
    ∧ outcome_of <$> writes_of es = (λ m, outcome m true) <$> ms
    ∧ executed_of es = identity <$> ms
    ∧ applied_of es = announced <$> ms
    ∧ cluster w' = c'.
Proof.
  revert w. induction ms as [|m ms IH]; intros w Hall Hs.
  - injection Hall as <-. exists w, []. split_and!; [done | apply since_refl | done..].
  - simpl in Hall. destruct (Migration.execute m client_array (cluster w)) as [c1 [err|]] eqn:Em; [done|].
    set (row := record_of m (clock (cluster w)) (clock c1) true).
    set (new := [Executed (Migration.version m) (Migration.name m);
                 Served (InsertInto (Shift.migrationTable opts) row);
                 Emitted (appliedMigration (Migration.version m)
                            (Migration.name m) (Migration.type m))]).
    set (w1 := mkWorld c1 (upsert row (ledger w)) (tail (faults w)) (trace w ++ new)).
    assert (step opts m w = (Ok tt, w1)) as Estep.
    { rewrite step_spec, Em. simpl.
      pose proof (served_next_head _ _ Hs) as Hh.
      destruct (faults w) as [|[message|] later]; [done| |done]. by destruct (Hh message later). }
    destruct (IH w1) as (w' & es & Erun & Hsince & Hw & Hx & Ha & Hc);
      [done | by apply served_next_tail |].
    exists w', (new ++ es). split_and!; [| | | | | done].
    + simpl. by rewrite (bind_ok _ _ _ _ _ Estep).
    + unfold since in *. rewrite Hsince. simpl. by rewrite <- app_assoc.
    + unfold writes_of in *. rewrite omap_app, fmap_app. simpl. by rewrite Hw.
    + unfold executed_of in *. rewrite omap_app. simpl. by rewrite Hx.
    + unfold applied_of in *. rewrite omap_app. simpl. by rewrite Ha.
Qed.

(** X17.  In a run in which every pending unit returns normally and the
    driver serves their ledger writes, [migrate] returns normally, having
    executed the pending units in order, one after the other on the cluster
    that the one before left, and having written for each a row with its
    version, name, type and checksum and [success = true], followed by its
    notification. *)
Theorem Shift_all_pending_applied (h : Host) (opts : Options.t) (w0 w : World)
    (H : list Row.t) (D : list Migration.t) (c' : Cluster) :
  Shift.prepare h opts w0 = (Ok (H, D), w) →
  Shift.checkAppliedMigrations H D = Ok tt →
  all_succeed client_array (drop (length H) D) (cluster w) = Some c' →
  served_next (length D - length H) w →
  ∃ w' es,
    Shift.migrate h opts w0 = (Ok tt, w')
    ∧ since w0 w' es
    ∧ outcome_of <$> writes_of es = (λ m, outcome m true) <$> drop (length H) D
    ∧ executed_of es = identity <$> drop (length H) D
    ∧ applied_of es = announced <$> drop (length H) D
    ∧ cluster w' = c'.
Proof.
  intros Ep Ec Hall Hserved.
  destruct (each_all_succeed opts (drop (length H) D)
              (log (Emitted checkedAppliedMigrations) w) c')
    as (w' & es & Er & Hs & Hw & Hx & Ha & Hc).
  { done. }
  { intros i message Hi. apply Hserved. by rewrite length_drop in Hi. }
  destruct (Shift_run h opts w0 w H D (Ok tt) w' ([Emitted checkedAppliedMigrations] ++ es))
    as (es0 & Hq & Em & Hs').
  { done. }
  { by rewrite Shift_reconcile_unfold, Ec. }
  { unfold since in *. rewrite Hs. simpl. by rewrite <- app_assoc. }
  exists w', (es0 ++ [Emitted checkedAppliedMigrations] ++ es).
  destruct (quiet_observed es0 ([Emitted checkedAppliedMigrations] ++ es) Hq) as (-> & -> & ->).
  by split_and!.
Qed.

Lemma Shift_all_pending_applied_witness :
  let h := Demo.host "migrations" Demo.two_scripts in
  let w0 := Demo.world [Demo.row 1 "Create users" "#CREATE TABLE users" true] [] in
  let D := Demo.loaded "migrations" Demo.two_scripts in
  ∃ w' es,
    Shift.migrate h Demo.opts w0 = (Ok tt, w')
    ∧ since w0 w' es
    ∧ outcome_of <$> writes_of es = (λ m, outcome m true) <$> drop 1 D
    ∧ executed_of es = identity <$> drop 1 D
    ∧ applied_of es = announced <$> drop 1 D
    ∧ cluster w' = mkCluster ["CREATE INDEX i"] 1001.
Proof.
  intros h w0 D.
  apply (Shift_all_pending_applied h Demo.opts w0 (Shift.prepare h Demo.opts w0).2
           [Demo.row 1 "Create users" "#CREATE TABLE users" true] D).
  - vm_compute. reflexivity.
  - vm_compute. reflexivity.
  - vm_compute. reflexivity.
  - intros i message Hi. vm_compute. by destruct i.
Defined.

Lemma books_quiet r es : quiet es → books r es.
Proof.
  intros (Hw & Hx & Ha). unfold books. rewrite Hw, Hx, Ha.
  split_and!; [done | done | simpl; lia | | done].
  intros i row Hi. by rewrite lookup_nil in Hi.
Qed.

Lemma books_after_quiet r es0 es : quiet es0 → books r es → books r (es0 ++ es).
Proof.
  intros Hq Hb. unfold books.
  by destruct (quiet_observed es0 es Hq) as (-> & -> & ->).
Qed.

Lemma books_rejected e version name s : books (Throw e) [Executed version name; Rejected s].
Proof.
  unfold books. split_and!; [done | by eexists | simpl; lia | | done].
  intros i row Hi. simpl in Hi. by rewrite lookup_nil in Hi.
Qed.

Lemma books_failed e table row :
  Row.success row = false →
  books (Throw e) [Executed (Row.version row) (Row.name row); Served (InsertInto table row)].
Proof.
  intros Hrow. unfold books.
  assert (¬ succeeded row) as Hno by (unfold succeeded; congruence).
  split_and!; [| done | simpl; lia | | done].
  - simpl. by rewrite filter_cons_False.
  - intros [|i] row' Hi _; [done|]. simpl in Hi. by rewrite lookup_nil in Hi.
Qed.

Lemma books_next r table row es :
  Row.success row = true →
  books r es →
  books r ([Executed (Row.version row) (Row.name row); Served (InsertInto table row);
            Emitted (appliedMigration (Row.version row) (Row.name row) (Row.type row))]
           ++ es).
Proof.
  intros Hrow (Ha & Hp & Hl & Hf & Hok). unfold books.
  unfold writes_of, executed_of, applied_of in *. rewrite !omap_app. simpl.
  split_and!.
  - rewrite filter_cons_True by done. simpl. by rewrite Ha.
  - by apply prefix_cons.
  - lia.
  - intros [|i] row' Hi Hrow'; simpl in Hi.
    + injection Hi as <-. by destruct Hrow'.
    + f_equal. by eapply Hf.
  - intros ->. destruct (Hok eq_refl) as [-> ?]. split; [done|]. by constructor.
Qed.

(** The books of the loop, whatever the payloads and the driver do. *)
Lemma each_books opts ms w :
  ∃ r w' es, each (step opts) ms w = (r, w') ∧ since w w' es ∧ books r es.
Proof.
  revert w. induction ms as [|m ms IH]; intros w.
  - exists (Ok tt), w, []. split; [done|]. split; [apply since_refl|]. by apply books_quiet.
  - simpl. unfold mbind, M_bind.
    pose proof (step_spec opts m w) as Estep.
    destruct (Migration.execute m client_array (cluster w)) as [c caught]. simpl in Estep.
    destruct (faults w) as [|[message|] later], caught as [err|];
      rewrite Estep; clear Estep.
    all: try (eexists _, _, [_; _]; split; [done|]; split; [done|];
              first [ apply books_rejected
                    | apply (books_failed err _ (record_of m _ _ false)); done ]).
    all: match goal with |- context [each _ _ ?w1] =>
           destruct (IH w1) as (r & w' & es & -> & Hs & Hb) end.
    all: eexists r, w', ([_; _; _] ++ es); split; [done|]; split;
      [ unfold since in *; rewrite Hs; simpl; by rewrite <- app_assoc
      | apply (books_next r _ (record_of m _ _ true)); done ].
Qed.

(** X18.  The books of every run, whatever the payloads and the driver do:
    the notifications are those of the rows written with [success = true],
    in order; the rows written are those of the units executed, in order,
    except that the last unit executed may have no row; a row with
    [success = false] can only be the last row written; and when the run
    returns normally every unit executed has its row, with
    [success = true]. *)
Theorem Shift_run_accounting (h : Host) (opts : Options.t) (w : World) :
  ∃ r w' es,
    Shift.migrate h opts w = (r, w')
    ∧ since w w' es
    ∧ applied_of es = row_announced <$> filter succeeded (writes_of es)
    ∧ row_identity <$> writes_of es `prefix_of` executed_of es
    ∧ (length (executed_of es) ≤ S (length (writes_of es)))%nat
    ∧ (∀ i row, writes_of es !! i = Some row → ¬ succeeded row →
         S i = length (writes_of es))
    ∧ (r = Ok tt → length (executed_of es) = length (writes_of es)
                   ∧ Forall succeeded (writes_of es)).
Proof.
  change (∃ r w' es, Shift.migrate h opts w = (r, w') ∧ since w w' es ∧ books r es).
  destruct (Shift.prepare h opts w) as [[[H D]|e] w1] eqn:Ep.
  - destruct (Shift_prepare_ok _ _ _ _ _ _ Ep) as (_ & _ & _ & _ & es0 & Hs0 & Hq0).
    rewrite (Shift_migrate_prepared _ _ _ _ _ _ Ep), Shift_reconcile_unfold.
    destruct (Shift.checkAppliedMigrations H D).
    + destruct (each_books opts (drop (length H) D)
                  (log (Emitted checkedAppliedMigrations) w1))
        as (r & w' & es & -> & Hs & Hb).
      exists r, w', (es0 ++ [Emitted checkedAppliedMigrations] ++ es).
      split; [done|]. split.
      * eapply since_trans; [done|]. unfold since in *. rewrite Hs. simpl.
        by rewrite <- app_assoc.
      * apply books_after_quiet; [done|]. by apply (books_after_quiet _ [_]).
    + exists (Throw e), w1, es0. split; [done|]. split; [done|]. by apply books_quiet.
  - destruct (Shift_prepare_setup_like h opts _ _ _ Ep) as (_ & _ & es0 & Hs0 & Hq0).
    rewrite (Shift_migrate_unprepared _ _ _ _ _ Ep).
    exists (Throw e), w1, es0. split; [done|]. split; [done|]. by apply books_quiet.
Qed.

(** ** A ledger write that the driver rejects *)

Lemma each_rejected_write opts before u after w ck message :
  all_succeed client_array before (cluster w) = Some ck →
  served_next (length before) w →
  faults w !! length before = Some (Some message) →
  ∃ w' es,
    each (step opts) (before ++ u :: after) w = (Throw (External message), w')
    ∧ since w w' es
    ∧ outcome_of <$> writes_of es = (λ m, outcome m true) <$> before
    ∧ executed_of es = identity <$> (before ++ [u])
    ∧ applied_of es = announced <$> before
    ∧ cluster w' = (Migration.execute u client_array ck).1.
Proof.
  revert w. induction before as [|m before IH]; intros w Hall Hs Hf.
  - injection Hall as <-. simpl. unfold mbind, M_bind. rewrite step_spec.
    destruct (Migration.execute u client_array (cluster w)) as [c caught]. simpl.
    destruct (faults w) as [|[message'|] later]; [done| |done].
    injection Hf as ->. eexists _, [_; _]. by split_and!.
  - simpl in Hall. destruct (Migration.execute m client_array (cluster w)) as [c1 [err|]] eqn:Em; [done|].
    set (row := record_of m (clock (cluster w)) (clock c1) true).
    set (new := [Executed (Migration.version m) (Migration.name m);
                 Served (InsertInto (Shift.migrationTable opts) row);
                 Emitted (appliedMigration (Migration.version m)
                            (Migration.name m) (Migration.type m))]).
    set (w1 := mkWorld c1 (upsert row (ledger w)) (tail (faults w)) (trace w ++ new)).
    assert (step opts m w = (Ok tt, w1)) as Estep.
    { rewrite step_spec, Em. simpl.
      pose proof (served_next_head _ _ Hs) as Hh.
      destruct (faults w) as [|[message'|] later]; [done| |done]. by destruct (Hh message' later). }
    destruct (IH w1) as (w' & es & Erun & Hsince & Hw & Hx & Ha & Hc).
    { done. }
    { by apply served_next_tail. }
    { simpl. by rewrite lookup_tail. }
    exists w', (new ++ es). split_and!; [| | | | | done].
    + change (each (step opts) ((m :: before) ++ u :: after) w)
        with ((step opts m ≫= λ _, each (step opts) (before ++ u :: after)) w).
      by rewrite (bind_ok _ _ _ _ _ Estep).
    + unfold since in *. rewrite Hsince. simpl. by rewrite <- app_assoc.
    + unfold writes_of in *. rewrite omap_app, fmap_app. simpl. by rewrite Hw.
    + unfold executed_of in *. rewrite omap_app. simpl. by rewrite Hx.
    + unfold applied_of in *. rewrite omap_app. simpl. by rewrite Ha.
Qed.

(** X19.  When the driver rejects the ledger write of a pending unit [u],
    the writes of the units [before] it having been served and their payloads
    having returned normally, [migrate] throws the driver's error whatever
    the payload of [u] did: [execute] was called on [u] and what it did to
    the cluster stays, but no row is written for [u] and it is not announced;
    the rows written and the notifications are those of [before], and no
    unit after [u] is executed. *)
Theorem Shift_rejected_write_ends_run (h : Host) (opts : Options.t) (w0 w : World)
    (H : list Row.t) (D before after : list Migration.t) (u : Migration.t)
    (ck : Cluster) (message : string) :
  Shift.prepare h opts w0 = (Ok (H, D), w) →
  Shift.checkAppliedMigrations H D = Ok tt →
  drop (length H) D = before ++ u :: after →
  all_succeed client_array before (cluster w) = Some ck →
  served_next (length before) w →
  faults w !! length before = Some (Some message) →
  ∃ w' es,
    Shift.migrate h opts w0 = (Throw (External message), w')
    ∧ since w0 w' es
    ∧ outcome_of <$> writes_of es = (λ m, outcome m true) <$> before
    ∧ executed_of es = identity <$> (before ++ [u])
    ∧ applied_of es = announced <$> before
    ∧ cluster w' = (Migration.execute u client_array ck).1.
Proof.
  intros Ep Ec Ed Hall Hserved Hf.
  destruct (each_rejected_write opts before u after
              (log (Emitted checkedAppliedMigrations) w) ck message)
    as (w' & es & Er & Hs & Hw & Hx & Ha & Hc); [done..|].
  destruct (Shift_run h opts w0 w H D (Throw (External message)) w'
              ([Emitted checkedAppliedMigrations] ++ es))
    as (es0 & Hq & Em & Hs').
  { done. }
  { by rewrite Shift_reconcile_unfold, Ec, Ed. }
  { unfold since in *. rewrite Hs. simpl. by rewrite <- app_assoc. }
  exists w', (es0 ++ [Emitted checkedAppliedMigrations] ++ es).
  destruct (quiet_observed es0 ([Emitted checkedAppliedMigrations] ++ es) Hq) as (-> & -> & ->).
  by split_and!.
Qed.

Lemma Shift_rejected_write_ends_run_witness :
  let h := Demo.host "migrations" DemoListings3.one_bad_script in
  let w0 := Demo.world [] [None; None; Some "Write timeout"] in
  let u := default Demo.nobody (Demo.loaded "migrations" DemoListings3.one_bad_script !! 0%nat) in
  (Migration.execute u client_array (cluster w0)).2 = Some (External "Invalid query")
  ∧ ∃ w' es,
      Shift.migrate h Demo.opts w0 = (Throw (External "Write timeout"), w')
      ∧ since w0 w' es
      ∧ outcome_of <$> writes_of es = (λ m, outcome m true) <$> []
      ∧ executed_of es = identity <$> ([] ++ [u])
      ∧ applied_of es = announced <$> []
      ∧ cluster w' = (Migration.execute u client_array (cluster w0)).1.
Proof.
  intros h w0 u. split; [reflexivity|].
  apply (Shift_rejected_write_ends_run h Demo.opts w0 (Shift.prepare h Demo.opts w0).2
           [] (Demo.loaded "migrations" DemoListings3.one_bad_script) [] [] u
           (cluster w0) "Write timeout").
  - vm_compute. reflexivity.
  - reflexivity.
  - vm_compute. reflexivity.
  - reflexivity.
  - intros i message Hi. simpl in Hi. lia.
  - vm_compute. reflexivity.
Defined.

(** ** A failed run and the run after it *)

Lemma upsert_elem_inv x row rows : x ∈ upsert row rows → x = row ∨ x ∈ rows.
Proof.
  induction rows as [|r rows IH]; simpl.
  - intros ->%list_elem_of_singleton. by left.
  - case_bool_decide.
    + intros [->|Hx]%elem_of_cons; [by left | right; by right].
    + intros [->|Hx]%elem_of_cons; [right; by left|].
      destruct (IH Hx) as [->|?]; [by left | right; by right].
Qed.

(** Where the rows of the ledger come from when the loop stops at the
    first unit that throws. *)
Lemma each_failure_ledger opts before u after w ck c' e :
  all_succeed client_array before (cluster w) = Some ck →
  Migration.execute u client_array ck = (c', Some e) →
  served_next (S (length before)) w →
  ∃ w' row,
    each (step opts) (before ++ u :: after) w = (Throw e, w')
    ∧ row ∈ ledger w'
    ∧ outcome_of row = outcome u false
    ∧ ∀ x, x ∈ ledger w' →
        x = row ∨ x ∈ ledger w ∨ ∃ m, m ∈ before ∧ Row.version x = Migration.version m.
Proof.
  revert w. induction before as [|m before IH]; intros w Hall Hu Hs.
  - injection Hall as <-. simpl. unfold mbind, M_bind. rewrite step_spec, Hu. simpl.
    pose proof (served_next_head _ _ Hs) as Hh.
    destruct (faults w) as [|[message|] later] eqn:Ef; [|by destruct (Hh message later)|].
    all: eexists _, _; split; [done|]; simpl; split; [apply upsert_elem|]; split; [done|].
    all: intros x [->|Hx]%upsert_elem_inv; [by left | right; by left].
  - simpl in Hall. destruct (Migration.execute m client_array (cluster w)) as [c1 [err|]] eqn:Em; [done|].
    set (row := record_of m (clock (cluster w)) (clock c1) true).
    set (w1 := mkWorld c1 (upsert row (ledger w)) (tail (faults w))
                 (trace w ++ [Executed (Migration.version m) (Migration.name m);
                              Served (InsertInto (Shift.migrationTable opts) row);
                              Emitted (appliedMigration (Migration.version m)
                                         (Migration.name m) (Migration.type m))])).
    assert (step opts m w = (Ok tt, w1)) as Estep.
    { rewrite step_spec, Em. simpl.
      pose proof (served_next_head _ _ Hs) as Hh.
      destruct (faults w) as [|[message|] later]; [done| |done]. by destruct (Hh message later). }
    destruct (IH w1) as (w' & row' & Erun & Hin & Hrow & Hfrom);
      [done | done | by apply served_next_tail |].
    exists w', row'. split_and!; [|done|done|].
    + change (each (step opts) ((m :: before) ++ u :: after) w)
        with ((step opts m ≫= λ _, each (step opts) (before ++ u :: after)) w).
      by rewrite (bind_ok _ _ _ _ _ Estep).
    + intros x Hx. destruct (Hfrom x Hx) as [->|[Hx1|(m' & Hm' & Hv)]].
      * by left.
      * simpl in Hx1. apply upsert_elem_inv in Hx1 as [->|Hx1].
        -- right. right. exists m. split; [by left | done].
        -- right. by left.
      * right. right. exists m'. split; [by right | done].
Qed.

Lemma Sorted_last_max s x :
  Sorted version_le s → last s = Some x → Forall (λ y, Row.version y ≤ Row.version x) s.
Proof.
  induction 1 as [|y s Hs IH Hhd]; [done|]. intros Hl.
  destruct s as [|z s].
  - injection Hl as ->. constructor; [lia | constructor].
  - change (last (y :: z :: s)) with (last (z :: s)) in Hl. specialize (IH Hl).
    constructor; [|done].
    inversion Hhd as [|? ? Hyz]; subst. inversion IH as [|? ? Hzx]; subst.
    unfold version_le in Hyz. lia.
Qed.

(** The history ends with the row of the highest version. *)
Lemma sort_last_highest row rows :
  row ∈ rows →
  (∀ x, x ∈ rows → x = row ∨ Row.version x < Row.version row) →
  last (sort Shift.by_version rows) = Some row.
Proof.
  intros Hin Hmax.
  pose proof (sort_Permutation Shift.by_version rows) as Hp.
  pose proof (sort_Sorted rows) as Hs.
  destruct (last (sort Shift.by_version rows)) as [x|] eqn:El.
  - destruct (Hmax x) as [->|Hlt]; [|done|].
    + rewrite <- Hp. by eapply last_Some_elem_of.
    + pose proof (Sorted_last_max _ _ Hs El) as Hall.
      rewrite Forall_forall in Hall. specialize (Hall row).
      rewrite Hp in Hall. specialize (Hall Hin). lia.
  - apply last_None in El. rewrite El in Hp. apply Permutation_nil_l in Hp.
    subst. by apply elem_of_nil in Hin.
Qed.

Lemma check_halted H D lm :
  last H = Some lm →
  Row.success lm = false →
  Shift.checkAppliedMigrations H D = Throw (HaltedHistory (Row.version lm) (Row.name lm)).
Proof.
  intros El Hs. unfold Shift.checkAppliedMigrations.
  destruct H as [|r H]; [done|].
  destruct (last_lookup_length (r :: H)) as [E|]; [|done].
  change (length (r :: H) =? 0)%nat with false. cbv iota.
  by rewrite E, El, Hs.
Qed.

(** X20.  A run that stopped at a unit [u] whose payload threw halts every
    later run on the ledger it left, when [u] has the highest version in
    it: whatever the definition directory then holds, the later run throws
    without executing a unit or writing to the ledger, and, when the driver
    serves set-up and the definitions load, with the error that names the
    version and name of [u]. *)
Theorem Shift_failed_run_halts_next (h : Host) (opts : Options.t) (w0 w : World)
    (H : list Row.t) (D before after : list Migration.t) (u : Migration.t)
    (ck c' : Cluster) (e : Error) :
  Shift.prepare h opts w0 = (Ok (H, D), w) →
  Shift.checkAppliedMigrations H D = Ok tt →
  drop (length H) D = before ++ u :: after →
  all_succeed client_array before (cluster w) = Some ck →
  Migration.execute u client_array ck = (c', Some e) →
  served_next (S (length before)) w →
  (∀ r, r ∈ ledger w0 → Row.version r < Migration.version u) →
  (∀ m, m ∈ before → Migration.version m < Migration.version u) →
  ∃ w1,
    Shift.migrate h opts w0 = (Throw e, w1)
    ∧ ∀ h2 w2, ledger w2 = ledger w1 →
        ∃ e2 w3 es,
          Shift.migrate h2 opts w2 = (Throw e2, w3)
          ∧ since w2 w3 es ∧ quiet es
          ∧ ledger w3 = ledger w2 ∧ cluster w3 = cluster w2
          ∧ (served_next 4 w2 →
             (∃ D2, Shift.loadAvailableMigrations h2 (Options.dir opts) = Ok D2) →
             e2 = HaltedHistory (Migration.version u) (Migration.name u)).
Proof.
  intros Ep Ec Ed Hall Hu Hserved Hledger Hbefore.
  destruct (each_failure_ledger opts before u after
              (log (Emitted checkedAppliedMigrations) w) ck c' e)
    as (w1 & row & Er & Hin & Hrow & Hfrom); [done..|].
  destruct (Shift_prepare_ok _ _ _ _ _ _ Ep) as (_ & _ & L & _).
  injection Hrow as Hv Hn _ _ Hsucc.
  exists w1. split.
  { rewrite (Shift_migrate_prepared _ _ _ _ _ _ Ep).
    by rewrite Shift_reconcile_unfold, Ec, Ed. }
  intros h2 w2 L2.
  assert (last (sort Shift.by_version (ledger w2)) = Some row) as Hlast.
  { rewrite L2. apply sort_last_highest; [done|].
    intros x Hx. destruct (Hfrom x Hx) as [->|[Hx0|(m & Hm & Hxm)]].
    - by left.
    - right. simpl in Hx0. rewrite L in Hx0. rewrite Hv. by apply Hledger.
    - right. rewrite Hv, Hxm. by apply Hbefore. }
  destruct (Shift.prepare h2 opts w2) as [[[H2 D2]|e2] w3] eqn:Ep2.
  - destruct (Shift_prepare_ok _ _ _ _ _ _ Ep2) as (-> & _).
    pose proof (check_halted _ D2 row Hlast Hsucc) as Ec2.
    rewrite Hv, Hn in Ec2.
    destruct (Shift_run_stopped h2 opts w2 w3 _ D2 _ Ep2 Ec2) as (Em & L3 & C3 & es & Hs & Hq).
    eexists _, w3, es. by split_and!.
  - destruct (Shift_prepare_setup_like h2 opts _ _ _ Ep2) as (L3 & C3 & es & Hs & Hq).
    exists e2, w3, es. rewrite (Shift_migrate_unprepared _ _ _ _ _ Ep2).
    split_and!; [done..|]. intros Hserved2 [D2 El].
    destruct (Shift_prepare_served h2 opts w2) as (fs & Ep2').
    { apply (served_next_le _ 4); [apply setup_statements_le | done]. }
    rewrite El in Ep2'. simpl in Ep2'. congruence.
Qed.

Lemma Shift_failed_run_halts_next_witness :
  let h := Demo.host "migrations" Demo.three_scripts in
  let w0 := Demo.world [] [] in
  let u := default Demo.nobody (Demo.loaded "migrations" Demo.three_scripts !! 1%nat) in
  identity u = (2, "Drop missing")
  ∧ ∃ w1,
      Shift.migrate h Demo.opts w0 = (Throw (External "Invalid query"), w1)
      ∧ ∀ h2 w2, ledger w2 = ledger w1 →
          ∃ e2 w3 es,
            Shift.migrate h2 Demo.opts w2 = (Throw e2, w3)
            ∧ since w2 w3 es ∧ quiet es
            ∧ ledger w3 = ledger w2 ∧ cluster w3 = cluster w2
            ∧ (served_next 4 w2 →
               (∃ D2, Shift.loadAvailableMigrations h2 (Options.dir Demo.opts) = Ok D2) →
               e2 = HaltedHistory (Migration.version u) (Migration.name u)).
Proof.
  intros h w0 u. split; [reflexivity|].
  apply (Shift_failed_run_halts_next h Demo.opts w0 (Shift.prepare h Demo.opts w0).2 []
           (Demo.loaded "migrations" Demo.three_scripts)
           (take 1 (Demo.loaded "migrations" Demo.three_scripts))
           (drop 2 (Demo.loaded "migrations" Demo.three_scripts))
           u
           (mkCluster ["CREATE TABLE users"] 1001) (mkCluster ["CREATE TABLE users"] 1002)
           (External "Invalid query")).
  - vm_compute. reflexivity.
  - reflexivity.
  - vm_compute. reflexivity.
  - vm_compute. reflexivity.
  - vm_compute. reflexivity.
  - intros i message Hi. vm_compute. by destruct i.
  - intros r Hr. by apply elem_of_nil in Hr.
  - intros m Hm. vm_compute in Hm. apply list_elem_of_singleton in Hm. subst m. reflexivity.
Defined.

(** ** The table of the ledger *)

Lemma names_only_ret {A} table (a : A) : names_only table (mret a).
Proof. intros w. exists []. split; [apply since_refl | constructor]. Qed.

Lemma names_only_lift {A} table (r : result A) : names_only table (lift r).
Proof. intros w. exists []. split; [apply since_refl | constructor]. Qed.

Lemma names_only_throw {A} table (e : Error) : names_only table (throw (A := A) e).
Proof. intros w. exists []. split; [apply since_refl | constructor]. Qed.

Lemma names_only_new_Date table : names_only table new_Date.
Proof. intros w. exists []. split; [apply since_refl | constructor]. Qed.

Lemma names_only_emit table e : names_only table (emit e).
Proof. intros w. exists [Emitted e]. split; [done | constructor]. Qed.

Lemma names_only_try_execute table m handed : names_only table (try_execute m handed).
Proof.
  intros w. exists [Executed (Migration.version m) (Migration.name m)].
  unfold try_execute. destruct (Migration.execute m handed (cluster w)). split; [done | constructor].
Qed.

Lemma names_only_client_execute table s :
  (∀ t, table_of s = Some t → t = table) → names_only table (client_execute s).
Proof.
  intros Hs w. unfold client_execute.
  assert (Forall (eq table) (tables_of [Served s]) ∧ Forall (eq table) (tables_of [Rejected s]))
    as [Hserved Hrejected].
  { unfold tables_of. simpl. destruct (table_of s) as [t|] eqn:Et.
    - rewrite (Hs t eq_refl). split; by repeat constructor.
    - split; constructor. }
  destruct (faults w) as [|[message|] later].
  - exists [Served s]. split; [by destruct s | done].
  - exists [Rejected s]. split; [done | done].
  - exists [Served s]. split; [by destruct s | done].
Qed.

Lemma names_only_bind {A B} table (m : M A) (k : A → M B) :
  names_only table m → (∀ a, names_only table (k a)) → names_only table (m ≫= k).
Proof.
  intros Hm Hk w. unfold mbind, M_bind.
  destruct (Hm w) as (es1 & S1 & F1). destruct (m w) as [[a|e] w1]; simpl in *.
  - destruct (Hk a w1) as (es2 & S2 & F2). exists (es1 ++ es2).
    split; [by eapply since_trans|].
    unfold tables_of in *. rewrite omap_app. by apply Forall_app.
  - by exists es1.
Qed.

Lemma names_only_if {A} table (b : bool) (m1 m2 : M A) :
  names_only table m1 → names_only table m2 → names_only table (if b then m1 else m2).
Proof. by destruct b. Qed.

Lemma names_only_for_count table count i (body : nat → M unit) :
  (∀ i, names_only table (body i)) → names_only table (for_count count i body).
Proof.
  intros Hbody. revert i. induction count as [|count IH]; intros i; simpl.
  - apply names_only_ret.
  - apply names_only_bind; [done|]. intros _. apply IH.
Qed.

Lemma names_only_executeMigration table m :
  names_only table (Shift.executeMigration table m).
Proof.
  unfold Shift.executeMigration.
  apply names_only_bind; [apply names_only_new_Date|]. intros now.
  apply names_only_bind; [apply names_only_try_execute|]. intros cachedError.
  cbv zeta.
  apply names_only_bind; [apply names_only_new_Date|]. intros finished.
  apply names_only_bind.
  - apply names_only_client_execute. by intros t [= <-].
  - intros _. destruct cachedError; [apply names_only_throw | apply names_only_ret].
Qed.

(** A run names no table but the one of its options. *)
Lemma Shift_migrate_names_only h opts :
  names_only (Shift.migrationTable opts) (Shift.migrate h opts).
Proof.
  unfold Shift.migrate, Shift.ensureKeyspace, Shift.useKeyspace, Shift.ensureMigrationTable,
    Shift.getAppliedMigrations.
  repeat first
    [ apply names_only_bind
    | intro
    | apply names_only_if
    | apply names_only_ret
    | apply names_only_lift
    | apply names_only_emit
    | apply names_only_client_execute; by intros t [= <-]
    | apply names_only_client_execute; by intros t [=] ].
  unfold for_range. apply names_only_for_count. intros i.
  destruct (_ !! i) as [m|]; [|apply names_only_throw].
  apply names_only_bind; [apply names_only_executeMigration|].
  intros _. apply names_only_emit.
Qed.

(** X21.  A run of an engine made by the constructor names one table in
    all the statements it hands to the driver, served or rejected: the table
    that the caller's options give when they give a name that is not empty,
    and [migration_history] when they give none or the empty name. *)
Theorem Shift_one_ledger_table (h : Host) (opts : Options.t) (w : World) :
  ∃ r w' es,
    Shift.migrate h (Shift.new opts) w = (r, w')
    ∧ since w w' es
    ∧ ∀ table, table ∈ tables_of es →
        table ≠ ""
        ∧ (Options.migrationTable opts = Some table
           ∨ (Options.migrationTable opts = None ∨ Options.migrationTable opts = Some "")
             ∧ table = "migration_history").
Proof.
  destruct (Shift_migrate_names_only h (Shift.new opts) w) as (es & Hs & Hall).
  destruct (Shift.migrate h (Shift.new opts) w) as [r w'].
  exists r, w', es. split; [done|]. split; [done|].
  intros table Hin. rewrite Forall_forall in Hall. rewrite <- (Hall table Hin).
  unfold Shift.new, Shift.migrationTable.
  destruct (Options.migrationTable opts) as [[|c name]|] eqn:Et; simpl; rewrite ?Et; simpl.
  - split; [done|]. right. split; [by right | done].
  - split; [done|]. by left.
  - split; [done|]. right. split; [by left | done].
Qed.

(** ** Statement files under the [Shift] class *)

Lemma CqlMigration_execute_on_array h cql c :
  CqlMigration.execute h cql client_array c
  = (c, Some (TypeError "cassandraClient.execute is not a function")).
Proof.
  unfold CqlMigration.execute.
  destruct (splitStatements cql) as [|cs rest] eqn:Es; [|done].
  destruct cql as [|ch cql]; [done|].
  by destruct (splitStatements_first ch cql) as (pieces & [E | (p & E)]); rewrite E in Es.
Qed.

(** X22.  Under the [Shift] class the [execute] of a statement file never
    sends a statement: it is handed the array of clients and throws a
    [TypeError] at its first statement, whatever the content.  So a run whose
    first pending unit is a statement file calls its [execute], leaves the
    cluster as it was, writes the row of the unit with [success = false] when
    the driver serves the write, announces nothing and throws that
    [TypeError]; no unit after it is executed. *)
Theorem Shift_statement_file_fails (h h' : Host) (opts : Options.t) (w0 w : World)
    (H : list Row.t) (D after : list Migration.t) (m : Migration.t) (cql : string) :
  Shift.prepare h opts w0 = (Ok (H, D), w) →
  Shift.checkAppliedMigrations H D = Ok tt →
  drop (length H) D = m :: after →
  Migration.execute m = CqlMigration.execute h' cql →
  served_next 1 w →
  ∃ w' es,
    Shift.migrate h opts w0
    = (Throw (TypeError "cassandraClient.execute is not a function"), w')
    ∧ since w0 w' es
    ∧ executed_of es = [identity m]
    ∧ outcome_of <$> writes_of es = [outcome m false]
    ∧ applied_of es = []
    ∧ cluster w' = cluster w0.
Proof.
  intros Ep Ec Ed Em Hserved.
  destruct (Shift_prepare_ok _ _ _ _ _ _ Ep) as (_ & _ & _ & C & es0 & Hs0 & Hq).
  rewrite (Shift_migrate_prepared _ _ _ _ _ _ Ep), Shift_reconcile_unfold, Ec, Ed.
  simpl. unfold mbind, M_bind. rewrite step_spec. simpl.
  rewrite Em, CqlMigration_execute_on_array.
  pose proof (served_next_head _ _ Hserved) as Hh.
  destruct (faults w) as [|[message|] later] eqn:Ef; [|by destruct (Hh message later)|].
  all: eexists _, (es0 ++ [Emitted checkedAppliedMigrations; _; _]).
  all: destruct (quiet_observed es0 [Emitted checkedAppliedMigrations;
         Executed (Migration.version m) (Migration.name m);
         Served (InsertInto (Shift.migrationTable opts)
                   (record_of m (clock (cluster w)) (clock (cluster w)) false))] Hq)
         as (Hw & Hx & Ha).
  all: split; [reflexivity|]; split;
    [unfold since in *; simpl; rewrite Hs0; by rewrite <- !app_assoc|].
  all: rewrite Hw, Hx, Ha; by split_and!.
Qed.

Lemma Shift_statement_file_fails_witness :
  let h := Demo.host "migrations" DemoListings3.one_file in
  let w0 := Demo.world [] [] in
  let m := default Demo.nobody (Demo.loaded "migrations" DemoListings3.one_file !! 0%nat) in
  identity m = (1, "Create users")
  ∧ ∃ w' es,
      Shift.migrate h Demo.opts w0
      = (Throw (TypeError "cassandraClient.execute is not a function"), w')
      ∧ since w0 w' es
      ∧ executed_of es = [identity m]
      ∧ outcome_of <$> writes_of es = [outcome m false]
      ∧ applied_of es = []
      ∧ cluster w' = cluster w0.
Proof.
  intros h w0 m. split; [reflexivity|].
  apply (Shift_statement_file_fails h h Demo.opts w0 (Shift.prepare h Demo.opts w0).2 []
           (Demo.loaded "migrations" DemoListings3.one_file) [] m "CREATE TABLE users").
  - vm_compute. reflexivity.
  - reflexivity.
  - vm_compute. reflexivity.
  - reflexivity.
  - intros i message Hi. vm_compute. by destruct i.
Defined.
